(** * welshman: the feed compiler, the app-level subscribe/load wrappers,
      relay-url normalisation, and the Repository and Router contracts.

    A shallow embedding of

    - [packages/feeds/compiler.ts] (class [FeedCompiler]) together with the
      feed declarations of the feeds package ([FeedType], [Feed],
      [RequestItem], [FeedOptions]);
    - [packages/app/src/core.ts] ([subscribe], [load]);
    - the relay-url helpers ([LOCAL_RELAY_URL], [BOGUS_RELAY_URL],
      [isShareableRelayUrl], [normalizeRelayUrl]);

    followed by the properties proved about them.  JavaScript values are
    modelled as the code uses them: strings as [string], arrays as lists,
    optional object fields as [option], numbers that are timestamps, kinds
    and counts as [Z] or [nat], a rejected promise or a thrown exception as
    the [Throw] branch of [Result]. *)

From Stdlib Require Import ZArith Lia Ascii String List.
From stdpp Require Import base option list strings gmap sorting.

#[local] Set Warnings "-register-all,-clear-no-such-hyp".

Open Scope Z_scope.
Open Scope string_scope.

(* ===================================================================== *)
(** * Part I. The embedding                                               *)
(* ===================================================================== *)

(** ** Exceptions and promises *)

Module Js.

(** What a [throw] or a rejected promise carries.  [TypeError] is what the
    engine raises when a property is read off [undefined];
    [UnableToConvert] is [FeedCompiler.compile]'s own
    [new Error(`Unable to convert feed of type ${type} to filters`)]; a
    [Rejection] comes from a collaborator's promise. *)
Inductive Error : Type :=
| TypeError
| UnableToConvert (type : string)
| Rejection (reason : string).

(** The outcome of a call that may throw, or of an awaited promise. *)
Inductive Result (A : Type) : Type :=
| Ok (a : A)
| Throw (e : Error).
Arguments Ok {A} a.
Arguments Throw {A} e.

Definition bind {A B : Type} (r : Result A) (k : A -> Result B) : Result B :=
  match r with
  | Ok a => k a
  | Throw e => Throw e
  end.

Definition isOk {A : Type} (r : Result A) : bool :=
  match r with Ok _ => true | Throw _ => false end.

(** [xs.map(f)] for a synchronous [f] that may throw: the results in the
    order of [xs], or what the first call that throws threw (the calls after
    it are not made). *)
Definition mapM {A B : Type} (f : A -> Result B) : list A -> Result (list B) :=
  fix go (xs : list A) : Result (list B) :=
    match xs with
    | [] => Ok []
    | x :: xs' =>
        match f x with
        | Throw e => Throw e
        | Ok b => match go xs' with
                  | Throw e => Throw e
                  | Ok bs => Ok (b :: bs)
                  end
        end
    end.

(** The values of a list of outcomes read from left to right, or the first
    failure met. *)
Definition sequence {A : Type} (outcomes : list (Result A)) : Result (list A) :=
  mapM (fun outcome => outcome) outcomes.

(** Which of several pending promises settles first is up to the runtime and
    to the collaborators behind the promises.  [arrival xs] is [xs] in the
    order of settling: a rearrangement of [xs], about which nothing else is
    known. *)
Class Schedule : Type := {
  arrival : forall {A : Type}, list A -> list A;
  arrival_Permutation : forall (A : Type) (xs : list A), arrival xs ≡ₚ xs
}.

(** [await Promise.all(xs.map(async x => { const v = await p(x); use(v) }))]:
    the callbacks run as the promises resolve, so what they push comes in
    the order of settling; when promises reject, the rejection that settles
    first rejects the whole. *)
Definition inArrivalOrder `{Schedule} {A : Type} (promises : list (Result A))
    : Result (list A) :=
  sequence (arrival promises).

(** [await Promise.all(promises)]: the values in the order of [promises];
    when some promises reject, the rejection that settles first. *)
Definition promiseAll `{Schedule} {A : Type} (promises : list (Result A))
    : Result (list A) :=
  bind (inArrivalOrder promises) (fun _ => sequence promises).

(** [xs.every(f)]: stops at the first element on which [f] is false; an
    exception thrown by [f] propagates. *)
Definition every {A : Type} (f : A -> Result bool) : list A -> Result bool :=
  fix go (xs : list A) : Result bool :=
    match xs with
    | [] => Ok true
    | x :: xs' =>
        match f x with
        | Throw e => Throw e
        | Ok true => go xs'
        | Ok false => Ok false
        end
    end.

(** The receiver of a method call.  A class body is strict code, so a method
    taken off its object and passed as a plain callback
    ([xs.map(this.compile)]) runs with [this === undefined]; reading a
    property of it raises a [TypeError]. *)
Definition withThis {C A : Type} (this : option C) (k : C -> Result A) : Result A :=
  match this with
  | Some self => k self
  | None => Throw TypeError
  end.

(** [xs.includes(x)] on an array of strings. *)
Definition includes (xs : list string) (x : string) : bool :=
  bool_decide (x ∈ xs).

End Js.

Import Js.

Notation "x <- r ;; k" := (Js.bind r (fun x => k))
  (at level 100, r at next level, right associativity, only parsing).

(** ** Events and filters (the data model shared by every package) *)

(** A signed event; a [Rumor] is the same record with [sig] unused. *)
Record TrustedEvent : Type := mkEvent {
  id : string;
  pubkey : string;
  created_at : Z;
  kind : Z;
  tags : list (list string);
  content : string;
  sig : string
}.

(** A filter: every field is optional; tag constraints are keyed by the tag
    name ([("e", vs)] stands for the field ["#e": vs]). *)
Record Filter : Type := mkFilter {
  ids : option (list string);
  authors : option (list string);
  kinds : option (list Z);
  tagFilters : list (string * list string);
  since : option Z;
  until : option Z;
  limit : option Z;
  search : option string
}.

(** The object literal [{authors: xs}]. *)
Definition authorsFilter (xs : list string) : Filter :=
  {| ids := None; authors := Some xs; kinds := None; tagFilters := [];
     since := None; until := None; limit := None; search := None |}.

(** The object literal [{"#t": xs}]. *)
Definition topicFilter (xs : list string) : Filter :=
  {| ids := None; authors := None; kinds := None; tagFilters := [("t", xs)];
     since := None; until := None; limit := None; search := None |}.

(** The object literal [{ids: xs}]. *)
Definition idsFilter (xs : list string) : Filter :=
  {| ids := Some xs; authors := None; kinds := None; tagFilters := [];
     since := None; until := None; limit := None; search := None |}.

(** Modelled from the spec: the filter matcher of the util package is not
    among the sources.  "An event matches a filter iff every present
    constraint matches": [ids], [authors] and [kinds] are sets the event's
    field must belong to, a tag constraint asks for a tag of that name with
    one of the listed values, [since]/[until] are inclusive bounds. ([limit]
    and [search] do not constrain a single event locally.) *)
Definition matchTag (e : TrustedEvent) (c : string * list string) : bool :=
  existsb (fun t => match t with
                    | k :: v :: _ => bool_decide (k = c.1) && includes c.2 v
                    | _ => false
                    end) (tags e).

(** Modelled from the spec: "an event matches a filter iff every present
    constraint matches". *)
Definition matchFilter (f : Filter) (e : TrustedEvent) : bool :=
  match ids f with Some xs => includes xs (id e) | None => true end
  && match authors f with Some xs => includes xs (pubkey e) | None => true end
  && match kinds f with Some ks => bool_decide (kind e ∈ ks) | None => true end
  && forallb (matchTag e) (tagFilters f)
  && match since f with Some t => Z.leb t (created_at e) | None => true end
  && match until f with Some t => Z.leb (created_at e) t | None => true end.

(** Modelled from the spec: "a request is a disjunction (array) of
    filters". *)
Definition matchFilters (fs : list Filter) (e : TrustedEvent) : bool :=
  existsb (fun f => matchFilter f e) fs.

(** ** Regular expressions

    The part of JavaScript's regular expressions that the relay-url helpers
    use: character classes, sequence, alternation and repetition, over
    strings of code units below 256.  Whether a pattern matches is decided
    by derivatives; only the existence of a match is used by the code, never
    its groups. *)

Module Regex.

Inductive t : Type :=
| Void
| Eps
| Class (p : ascii -> bool)
| Seq (r1 r2 : t)
| Alt (r1 r2 : t)
| Star (r : t).

(** A literal character, [r+], and a literal string. *)
Definition Chr (c : ascii) : t := Class (Ascii.eqb c).

Definition Plus (r : t) : t := Seq r (Star r).

Fixpoint Lit (s : string) : t :=
  match s with
  | EmptyString => Eps
  | String c s' => Seq (Chr c) (Lit s')
  end.

(** Line feed and carriage return: what [.] leaves out. *)
Definition isLineTerminator (c : ascii) : bool :=
  let n := nat_of_ascii c in (Nat.eqb n 10 || Nat.eqb n 13)%bool.

(** [\s]: tab, line feed, vertical tab, form feed, carriage return, space
    and no-break space. *)
Definition isWhiteSpace (c : ascii) : bool :=
  let n := nat_of_ascii c in
  ((9 <=? n)%nat && (n <=? 13)%nat || Nat.eqb n 32 || Nat.eqb n 160)%bool.

(** [\d]. *)
Definition isDigit (c : ascii) : bool :=
  let n := nat_of_ascii c in ((48 <=? n)%nat && (n <=? 57)%nat)%bool.

Definition Any : t := Class (fun _ => true).

Definition Dot : t := Class (fun c => negb (isLineTerminator c)).

Definition Space : t := Class isWhiteSpace.

Definition Digit : t := Class isDigit.

Fixpoint nullable (r : t) : bool :=
  match r with
  | Void => false
  | Eps => true
  | Class _ => false
  | Seq r1 r2 => nullable r1 && nullable r2
  | Alt r1 r2 => nullable r1 || nullable r2
  | Star _ => true
  end.

Fixpoint deriv (c : ascii) (r : t) : t :=
  match r with
  | Void => Void
  | Eps => Void
  | Class p => if p c then Eps else Void
  | Seq r1 r2 =>
      if nullable r1 then Alt (Seq (deriv c r1) r2) (deriv c r2)
      else Seq (deriv c r1) r2
  | Alt r1 r2 => Alt (deriv c r1) (deriv c r2)
  | Star r1 => Seq (deriv c r1) (Star r1)
  end.

(** Whether [r] matches the whole of [s]. *)
Fixpoint matches (r : t) (s : string) : bool :=
  match s with
  | EmptyString => nullable r
  | String c s' => matches (deriv c r) s'
  end.

(** [s.match(/r/)] is not null: [r] matches somewhere in [s]. *)
Definition test (r : t) (s : string) : bool :=
  matches (Seq (Star Any) (Seq r (Star Any))) s.

(** [s.match(/^r/)] is not null: [r] matches at the start of [s]. *)
Definition testAtStart (r : t) (s : string) : bool :=
  matches (Seq r (Star Any)) s.

(** [s.match(/lit/g)?.length] for a literal, non-empty [lit], with 0 for
    [undefined]: the matches are counted from the left, each search going on
    after the end of the match before; [skip] characters are still part of
    the last match. *)
Fixpoint occurrencesFrom (lit : string) (skip : nat) (s : string) : nat :=
  match s with
  | EmptyString => 0%nat
  | String _ s' =>
      match skip with
      | S skip' => occurrencesFrom lit skip' s'
      | O => if String.prefix lit s
             then S (occurrencesFrom lit (String.length lit - 1)%nat s')
             else occurrencesFrom lit 0%nat s'
      end
  end.

Definition occurrences (lit s : string) : nat := occurrencesFrom lit 0%nat s.

End Regex.

(** ** Relay urls *)

Module Relays.

Definition LOCAL_RELAY_URL : string := "local://welshman.relay".

Definition BOGUS_RELAY_URL : string := "bogus://welshman.relay".

(** [s.slice(n)] for a start [n >= 0]. *)
Fixpoint slice (n : nat) (s : string) : string :=
  match n, s with
  | O, _ => s
  | S _, EmptyString => EmptyString
  | S n', String _ s' => slice n' s'
  end.

(** The argument is typed [string], so [typeof url === 'string'] holds. *)
Definition isShareableRelayUrl (url : string) : bool :=
  (* Is it actually a websocket url and has a dot *)
  Regex.testAtStart
    (Regex.Seq (Regex.Lit "wss://")
       (Regex.Seq (Regex.Plus Regex.Dot)
          (Regex.Seq (Regex.Chr ".") (Regex.Plus Regex.Dot)))) url
  (* Sometimes bugs cause multiple relays to get concatenated *)
  && Nat.eqb (Regex.occurrences "://" url) 1
  (* It shouldn't have any whitespace, url-encoded or otherwise *)
  && negb (Regex.test (Regex.Alt Regex.Space (Regex.Chr "%")) url)
  (* Don't match stuff with a port number *)
  && negb (Regex.test (Regex.Seq (Regex.Chr ":") (Regex.Plus Regex.Digit))
             (slice 6 url))
  (* Don't match raw ip addresses *)
  && negb (Regex.test
             (Regex.Seq (Regex.Plus Regex.Digit) (Regex.Seq (Regex.Chr ".")
               (Regex.Seq (Regex.Plus Regex.Digit) (Regex.Seq (Regex.Chr ".")
                 (Regex.Seq (Regex.Plus Regex.Digit) (Regex.Seq (Regex.Chr ".")
                   (Regex.Plus Regex.Digit)))))))
             (slice 6 url))
  (* Skip nostr.wine's virtual relays *)
  && negb (Regex.test (Regex.Lit "/npub") (slice 6 url)).

(** The code units below 256 that [String.prototype.toLowerCase] changes:
    the letters A to Z, and of the Latin-1 letters those from U+00C0 to
    U+00DE but for the sign U+00D7. *)
Definition isUpperCase (c : ascii) : bool :=
  let n := nat_of_ascii c in
  ((65 <=? n)%nat && (n <=? 90)%nat
   || (192 <=? n)%nat && (n <=? 222)%nat && negb (Nat.eqb n 215))%bool.

(** Each of them has its lower-case letter 32 places on. *)
Definition lowerCodeUnit (c : ascii) : ascii :=
  if isUpperCase c then ascii_of_nat (nat_of_ascii c + 32) else c.

(** [String.prototype.toLowerCase], on strings of code units below 256. *)
Fixpoint toLowerCase (s : string) : string :=
  match s with
  | EmptyString => EmptyString
  | String c s' => String (lowerCodeUnit c) (toLowerCase s')
  end.

(** [s.includes("/")]. *)
Fixpoint includesSlash (s : string) : bool :=
  match s with
  | EmptyString => false
  | String c s' => if Ascii.eqb c "/"%char then true else includesSlash s'
  end.

(** [url.match(/^wss?:\/\//)?.[0]]. *)
Definition wsPrefix (url : string) : option string :=
  if String.prefix "wss://" url then Some "wss://"
  else if String.prefix "ws://" url then Some "ws://"
  else None.

(** The two helpers of the lib package that [normalizeRelayUrl] calls are not
    among the sources.  [normalizeUrl] is typed
    [(url: string, options) => string]; it parses its argument as a url and
    throws on a string that is none, so it returns a string or throws.
    [stripProtocol] is typed [(url: string) => string]. *)
Class UrlLib : Type := {
  normalizeUrl : string -> Result string;   (* with {stripHash: true, stripAuthentication: false} *)
  stripProtocol : string -> string
}.

(** What [normalizeUrl] throws, [normalizeRelayUrl] throws: there is no
    [try] around the call. *)
Definition normalizeRelayUrl `{UrlLib} (url : string) (allowInsecure : bool)
    : Result string :=
  let prefix := if allowInsecure
                then match wsPrefix url with Some p => p | None => "wss://" end
                else "wss://" in
  (* Use our library to normalize *)
  bind (normalizeUrl url) (fun url =>
  (* Strip the protocol since only wss works, lowercase *)
  let url := toLowerCase (stripProtocol url) in
  (* Urls without pathnames are supposed to have a trailing slash *)
  let url := if negb (includesSlash url) then url ++ "/" else url in
  Ok (prefix ++ url)).

(** Called with default options: [{allowInsecure = false}]. *)
Definition normalizeRelayUrlDefault `{UrlLib} (url : string) : Result string :=
  normalizeRelayUrl url false.

End Relays.

(** ** The feeds package: declarations *)

Module FeedType.

Inductive t : Type :=
| Difference | Intersection | SymmetricDifference | Union
| Filter | Relay | List | LOL | DVM.

(** The string each member of the enum stands for. *)
Definition value (type : t) : string :=
  match type with
  | Difference => "\"
  | Intersection => "∩"
  | SymmetricDifference => "Δ"
  | Union => "∪"
  | Filter => "filter"
  | Relay => "relay"
  | List => "list"
  | LOL => "lol"
  | DVM => "dvm"
  end.

End FeedType.

Inductive Scope : Type := Self | Global | Follows | Followers.

(** [Filter & {scopes?, min_wot?, ...}]; [rest] holds the plain filter
    fields, as the destructuring in [_compileFilter] names them collectively. *)
Record DynamicFilter : Type := mkDynamicFilter {
  rest : Filter;
  scopes : option (list Scope);
  min_wot : option Z;
  max_wot : option Z;
  until_ago : option Z;
  since_ago : option Z
}.

Record DVMItem : Type := mkDVMItem {
  dvm_kind : Z;
  dvm_tags : option (list (list string))
}.

(** A feed is the array [[type, ...args]]; each constructor is one of the
    tuple types [RelayFeed], [DifferenceFeed], ..., [DVMFeed]. *)
Inductive Feed : Type :=
| RelayFeed (urls : list string) (feeds : list Feed)
| DifferenceFeed (feeds : list Feed)
| IntersectionFeed (feeds : list Feed)
| SymmetricDifferenceFeed (feeds : list Feed)
| UnionFeed (feeds : list Feed)
| FilterFeed (filters : list DynamicFilter)
| ListFeed (addresses : list string)
| LOLFeed (addresses : list string)
| DVMFeed (requests : list DVMItem).

(** [feed[0]]. *)
Definition feedType (feed : Feed) : FeedType.t :=
  match feed with
  | RelayFeed _ _ => FeedType.Relay
  | DifferenceFeed _ => FeedType.Difference
  | IntersectionFeed _ => FeedType.Intersection
  | SymmetricDifferenceFeed _ => FeedType.SymmetricDifference
  | UnionFeed _ => FeedType.Union
  | FilterFeed _ => FeedType.Filter
  | ListFeed _ => FeedType.List
  | LOLFeed _ => FeedType.LOL
  | DVMFeed _ => FeedType.DVM
  end.

(** Modelled from the spec: [getSubFeeds] is imported from the package's
    core module, whose copy among the sources predates it.  The spec calls
    feeds "tagged variants" composed by set algebra; the tuple types above
    fix where the sub-feeds sit: after the relay list of a relay feed, as the
    arguments of a set operation, nowhere in a leaf. *)
Definition getSubFeeds (feed : Feed) : list Feed :=
  match feed with
  | RelayFeed _ feeds => feeds
  | DifferenceFeed feeds | IntersectionFeed feeds
  | SymmetricDifferenceFeed feeds | UnionFeed feeds => feeds
  | FilterFeed _ | ListFeed _ | LOLFeed _ | DVMFeed _ => []
  end.

Record RequestItem : Type := mkRequestItem {
  relays : list string;
  filters : list Filter
}.

(** [FeedOptions<E>].  [request] and [requestDvm] return a promise and hand
    the events they find to [onEvent]: the model gives the events handed over
    by the time the promise resolves, or the rejection. *)
Record FeedOptions : Type := mkFeedOptions {
  request : RequestItem -> Result (list TrustedEvent);
  requestDvm : DVMItem -> Result (list TrustedEvent);
  getPubkeysForScope : Scope -> list string;
  getPubkeysForWotRange : Z -> Z -> list string
}.

(** ** What the compiler imports from the lib and util packages *)

(** Modelled from the spec: [uniq] of the lib package is not among the
    sources.  The spec speaks of relay sets, and the lib README lists
    [const unique = uniq(items)]: the array without its repeated elements,
    each kept where it first occurs (the order of a JavaScript [Set]). *)
Fixpoint uniq (xs : list string) : list string :=
  match xs with
  | [] => []
  | x :: xs' => x :: filter (fun y => y <> x) (uniq xs')
  end.

(** Modelled from the spec: the [Tags] wrapper of the util package is not
    among the sources; it holds the tags of events, "ordered sequence of
    (ordered sequence of string)". *)
Definition Tags : Type := list (list string).

(** The filter algebra and the [Tags] helpers of the util package, and the
    clock of the lib package, none of which is among the sources.  A
    [Fluent<string>] is the list it wraps.  [intersectFilters] folds the
    groups it is given into one and has nothing to start from when there is
    no group: it returns filters or throws. *)
Class UtilLib : Type := {
  now : Z;
  unionFilters : list Filter -> list Filter;
  intersectFilters : list (list Filter) -> Result (list Filter);
  getIdFilters : list string -> list Filter;
  (* Tags.fromEvent(e), Tags.fromEvents(events) *)
  tagsFromEvent : TrustedEvent -> Tags;
  tagsFromEvents : list TrustedEvent -> Tags;
  (* tags.values(key).valueOf(); tags.values().valueOf() for [None] *)
  tagValues : option string -> Tags -> list string;
  (* tags.filterByKey(keys) *)
  filterByKey : list string -> Tags -> Tags;
  (* tags.rejectByValue(values); a value may be undefined *)
  rejectByValue : list (option string) -> Tags -> Tags;
  (* tags.relays().valueOf() *)
  tagRelays : Tags -> list string;
  (* the {id, pubkey} read off JSON.parse(tags.get("request")?.value()), or
     of {} when there is no such tag or it does not parse *)
  requestOf : Tags -> option string * option string;
  (* "Unable to convert feed" is the compiler's own error, not the helper's *)
  intersectFilters_error :
    forall groups type, intersectFilters groups <> Throw (UnableToConvert type)
}.

(** Modelled from the spec: the [Fluent] wrapper of the util package is not
    among the sources; [fluent.exists()] says the wrapped array is not
    empty. *)
Definition exists_ {A : Type} (xs : list A) : bool :=
  match xs with [] => false | _ :: _ => true end.

(** ** The feeds package: [FeedCompiler] *)

Module FeedCompiler.

(** An instance of the class: [constructor(readonly options)]. *)
Record t : Type := new { options : FeedOptions }.

Section Compiler.
Context `{UtilLib} `{Schedule}.

(** [_compileFilter]: the dynamic fields are resolved into [authors],
    [until] and [since].  [scopes && !filter.authors] holds when [scopes] is
    there and [authors] is not (an empty array is truthy); [x || d] is [d]
    when [x] is missing or 0. *)
Definition _compileFilter (self : t) (df : DynamicFilter) : Filter :=
  let flt := rest df in
  let flt :=
    match scopes df, authors flt with
    | Some scopes, None =>
        {| ids := ids flt;
           authors := Some (flat_map (getPubkeysForScope (options self)) scopes);
           kinds := kinds flt; tagFilters := tagFilters flt; since := since flt;
           until := until flt; limit := limit flt; search := search flt |}
    | _, _ => flt
    end in
  let orElse (x : option Z) (d : Z) : Z :=
    match x with Some v => if Z.eqb v 0 then d else v | None => d end in
  let flt :=
    if bool_decide (min_wot df = None) && bool_decide (max_wot df = None) then flt
    else
      let wot := getPubkeysForWotRange (options self)
                   (orElse (min_wot df) 0) (orElse (max_wot df) 1) in
      {| ids := ids flt;
         authors := match authors flt with
                    | Some xs => Some (filter (fun pubkey => includes wot pubkey) xs)
                    | None => Some wot
                    end;
         kinds := kinds flt; tagFilters := tagFilters flt; since := since flt;
         until := until flt; limit := limit flt; search := search flt |} in
  let flt :=
    match until_ago df with
    | Some ago =>
        {| ids := ids flt; authors := authors flt; kinds := kinds flt;
           tagFilters := tagFilters flt; since := since flt;
           until := Some (now - ago); limit := limit flt; search := search flt |}
    | None => flt
    end in
  match since_ago df with
  | Some ago =>
      {| ids := ids flt; authors := authors flt; kinds := kinds flt;
         tagFilters := tagFilters flt; since := Some (now - ago);
         until := until flt; limit := limit flt; search := search flt |}
  | None => flt
  end.

(** The filters collected from the tags before the final guard. *)
Definition tagFilterList (tags : Tags) : list Filter :=
  let ttags := tagValues (Some "t") tags in
  let ptags := tagValues (Some "p") tags in
  let eatags := tagValues None (filterByKey ["e"; "a"] tags) in
  (if exists_ ttags then [topicFilter ttags] else [])
  ++ (if exists_ ptags then [authorsFilter ptags] else [])
  ++ (if exists_ eatags then getIdFilters eatags else []).

(** [_getFiltersFromTags]. *)
Definition _getFiltersFromTags (tags : Tags) : list Filter :=
  let filters := tagFilterList tags in
  (* If we don't have any filters, return nothing instead of everything *)
  if Nat.eqb (length filters) 0 then filters ++ [authorsFilter []] else filters.

(** [_compileLists]: [events] holds what [onEvent] was given when the
    request resolves. *)
Definition _compileLists (self : t) (addresses : list string) : Result RequestItem :=
  events <- request (options self)
              {| relays := []; filters := getIdFilters addresses |} ;;
  Ok {| relays := []; filters := _getFiltersFromTags (tagsFromEvents events) |}.

(** What [onEvent] pushes for one DVM response. *)
Definition dvmResponseTags (e : TrustedEvent) : Tags :=
  let tags := tagsFromEvent e in
  let '(id, pubkey) := requestOf tags in
  rejectByValue [id; pubkey] (filterByKey ["t"; "p"; "e"; "a"] tags).

(** [_compileDvms]: the responses of all requests, merged. *)
Definition _compileDvms (self : t) (requests : list DVMItem) : Result RequestItem :=
  responses <- promiseAll (map (requestDvm (options self)) requests) ;;
  let responseTags := map dvmResponseTags (concat responses) in
  let mergedTags := concat responseTags in
  Ok {| relays := tagRelays mergedTags; filters := _getFiltersFromTags mergedTags |}.

(** What [_compileUnion] returns once every sub-feed is compiled: [items]
    holds the compiled sub-feeds in the order their promises resolved, which
    is the order their relays and filters were pushed in. *)
Definition unionOfItems (items : list RequestItem) : RequestItem :=
  {| relays := uniq (flat_map relays items);
     filters := unionFilters (flat_map filters items) |}.

(** The callback of [items.forEach(...)] in [_compileIntersection]: what
    [relays] becomes after one item. *)
Definition narrow (relays0 : list string) (item : RequestItem) : list string :=
  if negb (Nat.eqb (length (relays item)) 0)
  then filter (fun relay => includes (relays item) relay) relays0
  else relays0.

(** The relay part of [_compileIntersection], lines 86 to 97. *)
Definition intersectRelays (items : list RequestItem) : list string :=
  let relays0 := uniq (flat_map relays items) in
  let hasRelays := negb (Nat.eqb (length relays0) 0) in
  let relays1 := fold_left narrow items relays0 in
  if hasRelays && Nat.eqb (length relays1) 0
  then relays1 ++ [Relays.BOGUS_RELAY_URL]
  else relays1.

(** The body of [_compileIntersection] once the sub-feeds are compiled, the
    [items] in the order of the feeds: the filters are intersected first,
    and what [intersectFilters] throws rejects the promise. *)
Definition intersectionOfItems (items : list RequestItem) : Result RequestItem :=
  fs <- intersectFilters (map filters items) ;;
  Ok {| relays := intersectRelays items; filters := fs |}.

(** [canCompile]; [this] is the receiver the method runs with: the compiler
    when called as [compiler.canCompile(feed)], nothing when [every] calls it
    as the bare callback [this.canCompile]. *)
Fixpoint canCompile (this : option t) (feed : Feed) {struct feed} : Result bool :=
  match feed with
  | RelayFeed _ feeds | UnionFeed feeds | IntersectionFeed feeds =>
      (* getSubFeeds([type, ...feed]).every(this.canCompile) *)
      withThis this (fun _ => every (canCompile None) feeds)
  | FilterFeed _ | ListFeed _ | DVMFeed _ => Ok true
  | DifferenceFeed _ | SymmetricDifferenceFeed _ | LOLFeed _ => Ok false
  end.

(** [compile]; [this] is the receiver the method runs with: the compiler
    when called as [this.compile(feed)], nothing when [map] calls it as the
    bare callback [this.compile].  An async method never throws: what it
    throws rejects its promise. *)
Fixpoint compile (this : option t) (feed : Feed) {struct feed} : Result RequestItem :=
  match feed with
  | UnionFeed feeds =>
      (* this._compileUnion(feeds), which maps [feed => this.compile(feed)] *)
      withThis this (fun self =>
        items <- inArrivalOrder (map (compile (Some self)) feeds) ;;
        Ok (unionOfItems items))
  | IntersectionFeed feeds =>
      (* this._compileIntersection(feeds), which maps [this.compile] itself *)
      withThis this (fun self =>
        items <- promiseAll (map (compile None) feeds) ;;
        intersectionOfItems items)
  | RelayFeed urls feeds =>
      withThis this (fun self =>
        items <- inArrivalOrder (map (compile (Some self)) feeds) ;;
        let item := unionOfItems items in
        Ok {| relays := relays item ++ urls; filters := filters item |})
  | FilterFeed dfs =>
      fs <- mapM (fun df => withThis this (fun self => Ok (_compileFilter self df))) dfs ;;
      Ok {| relays := []; filters := fs |}
  | ListFeed addresses =>
      withThis this (fun self => _compileLists self addresses)
  | DVMFeed requests =>
      withThis this (fun self => _compileDvms self requests)
  | DifferenceFeed _ | SymmetricDifferenceFeed _ | LOLFeed _ =>
      Throw (UnableToConvert (FeedType.value (feedType feed)))
  end.

(** The two methods [compile] dispatches the set operations to, as called
    on the compiler. *)
Definition _compileUnion (self : t) (feeds : list Feed) : Result RequestItem :=
  items <- inArrivalOrder (map (compile (Some self)) feeds) ;;
  Ok (unionOfItems items).

Definition _compileIntersection (self : t) (feeds : list Feed) : Result RequestItem :=
  items <- promiseAll (map (compile None) feeds) ;;
  intersectionOfItems items.

End Compiler.

(** [walk(feed, visit)]: [visit] is called for its effect, here on a state
    [S]; the method calls itself as [this.walk], on the compiler. *)
Fixpoint walk {S : Type} (visit : Feed -> S -> S) (feed : Feed) (s : S) {struct feed} : S :=
  let s := visit feed s in
  (* for (const subFeed of getSubFeeds(feed)) this.walk(subFeed, visit) *)
  match feed with
  | RelayFeed _ feeds
  | DifferenceFeed feeds | IntersectionFeed feeds
  | SymmetricDifferenceFeed feeds | UnionFeed feeds =>
      fold_left (fun s subFeed => walk visit subFeed s) feeds s
  | FilterFeed _ | ListFeed _ | LOLFeed _ | DVMFeed _ => s
  end.

End FeedCompiler.

(** ** The Repository (contract) *)

Module Repository.

(** Modelled from the spec: the identity key of a replaceable event,
    (pubkey, kind, None), or of an addressable one, (pubkey, kind, Some d)
    with d its distinguishing tag. *)
Definition IdentityKey : Type := (string * Z * option string)%type.

(** What the wire protocol fixes and the spec leaves to it: which kinds are
    replaceable, addressable or deletions, the distinguishing tag of an
    event, and the targets a deletion event references.  A deletion event is
    a regular one: it has no identity key of its own. *)
Class Protocol : Type := {
  isReplaceableKind : Z -> bool;
  isAddressableKind : Z -> bool;
  isDeletionKind : Z -> bool;
  distinguishingTag : TrustedEvent -> string;
  deletedIds : TrustedEvent -> list string;
  deletedAddresses : TrustedEvent -> list IdentityKey;
  deletion_is_regular :
    forall k, isDeletionKind k = true ->
              isReplaceableKind k = false /\ isAddressableKind k = false
}.

Section Model.
Context `{Protocol}.

(** Modelled from the spec: the [Repository] class of the util package is not
    among the sources.  Glossary: a replaceable event is kept per (pubkey,
    kind), an addressable one per (pubkey, kind, distinguishing tag). *)
Definition identityKey (e : TrustedEvent) : option IdentityKey :=
  if isReplaceableKind (kind e) then Some (pubkey e, kind e, None)
  else if isAddressableKind (kind e) then Some (pubkey e, kind e, Some (distinguishingTag e))
  else None.

(** Modelled from the spec: the state of the [Repository]: "at most one
    stored event per id" (a map from id to event), and the tombstones left by
    deletion events, by id and by addressable identity. *)
Record t : Type := mk {
  eventsById : gmap string TrustedEvent;
  deletedEventIds : gset string;
  deletedKeys : gset IdentityKey
}.

(** Modelled from the spec: a repository as constructed, holding nothing. *)
Definition empty : t :=
  {| eventsById := ∅; deletedEventIds := ∅; deletedKeys := ∅ |}.

(** Modelled from the spec: [isDeleted(event)] and
    [isDeletedByAddress(event)], the "tombstone lookups". *)
Definition isDeleted (r : t) (e : TrustedEvent) : bool :=
  bool_decide (id e ∈ deletedEventIds r).

(** Modelled from the spec: [isDeletedByAddress(event)]: the addressable
    identity of the event is tombstoned. *)
Definition isDeletedByAddress (r : t) (e : TrustedEvent) : bool :=
  match identityKey e with
  | Some k => bool_decide (k ∈ deletedKeys r)
  | None => false
  end.

(** Modelled from the spec: a "tombstoned" event, by id or by address. *)
Definition tombstoned (r : t) (e : TrustedEvent) : bool :=
  isDeleted r e || isDeletedByAddress r e.

(** Modelled from the spec: "the one with the greatest created_at
    (tie-break: lexicographically greatest id)": [a] comes before [b]. *)
Definition olderThan (a b : TrustedEvent) : bool :=
  Z.ltb (created_at a) (created_at b)
  || (Z.eqb (created_at a) (created_at b) && String.ltb (id a) (id b)).

(** Modelled from the spec: [e] has "the same identity key" [k]. *)
Definition sameKey (k : IdentityKey) (e : TrustedEvent) : bool :=
  bool_decide (identityKey e = Some k).

(** Modelled from the spec: [dump()], the "full-state export": every stored
    record, tombstoned or not. *)
Definition dump (r : t) : list TrustedEvent :=
  (map_to_list (eventsById r)).*2.

(** Modelled from the spec: a "stale" candidate: some stored event of the
    same identity is not older than it. *)
Definition stale (r : t) (e : TrustedEvent) : bool :=
  match identityKey e with
  | Some k => existsb (fun e' => sameKey k e' && negb (olderThan e' e)) (dump r)
  | None => false
  end.

(** Modelled from the spec: the acceptance rule of [publish]: an id already
    stored is not stored twice, an "already-tombstoned target" and a "stale
    replaceable/addressable event" are rejected silently. *)
Definition accepts (r : t) (e : TrustedEvent) : bool :=
  negb (bool_decide (id e ∈ dom (eventsById r)))
  && negb (tombstoned r e)
  && negb (stale r e).

(** Modelled from the spec: the records a newly stored event replaces,
    those of its identity ("at most one" per identity key). *)
Definition withoutKey (k : option IdentityKey) (m : gmap string TrustedEvent)
  : gmap string TrustedEvent :=
  match k with
  | Some k => filter (fun p => identityKey p.2 <> Some k) m
  | None => m
  end.

(** Modelled from the spec: what an accepted event does to the state: it
    takes the place of the records of its identity, and a deletion event
    "marks the target(s) tombstoned" without removing their records. *)
Definition store (r : t) (e : TrustedEvent) : t :=
  {| eventsById := <[id e := e]> (withoutKey (identityKey e) (eventsById r));
     deletedEventIds :=
       if isDeletionKind (kind e)
       then deletedEventIds r ∪ list_to_set (deletedIds e)
       else deletedEventIds r;
     deletedKeys :=
       if isDeletionKind (kind e)
       then deletedKeys r ∪ list_to_set (deletedAddresses e)
       else deletedKeys r |}.

(** Modelled from the spec: [publish(event)] "applies the
    replaceable/addressable/deletion rules"; a rejected event leaves the
    state as it is. *)
Definition publish (r : t) (e : TrustedEvent) : t :=
  if accepts r e then store r e else r.

(** Modelled from the spec: [load(events)] "replays each event through the
    same acceptance rule as publish". *)
Definition load (r : t) (events : list TrustedEvent) : t :=
  fold_left publish events r.

(** Modelled from the spec: "most-recent-created_at-first". *)
Definition newestFirst (a b : TrustedEvent) : Prop :=
  (created_at b <= created_at a)%Z.

#[global] Instance newestFirst_dec a b : Decision (newestFirst a b).
Proof. unfold newestFirst. apply _. Defined.

(** Modelled from the spec: "honoring each filter's own limit". *)
Definition takeLimit (f : Filter) (es : list TrustedEvent) : list TrustedEvent :=
  match limit f with
  | Some n => take (Z.to_nat n) es
  | None => es
  end.

(** Modelled from the spec: "deduplicating by id", first occurrences
    kept. *)
Fixpoint dedupById (es : list TrustedEvent) : list TrustedEvent :=
  match es with
  | [] => []
  | e :: es' =>
      e :: filter (fun e' => id e' <> id e) (dedupById es')
  end.

(** Modelled from the spec: [query(filters)] "returns all non-tombstoned
    stored events matching any filter in the list,
    most-recent-created_at-first, honoring each filter's own limit
    independently before merging, then deduplicating by id"; tombstoned
    events are returned only when the caller asks for them. *)
Definition queryFilter (includeDeleted : bool) (r : t) (f : Filter) : list TrustedEvent :=
  takeLimit f
    (merge_sort newestFirst
       (filter (fun e => matchFilter f e && (includeDeleted || negb (tombstoned r e)))
               (dump r))).

(** Modelled from the spec: the per-filter results merged, "then
    deduplicating by id". *)
Definition queryWith (includeDeleted : bool) (r : t) (fs : list Filter) : list TrustedEvent :=
  dedupById (flat_map (queryFilter includeDeleted r) fs).

(** Modelled from the spec: [query(filters)] in its default mode. *)
Definition query (r : t) (fs : list Filter) : list TrustedEvent :=
  queryWith false r fs.

End Model.

End Repository.

(** ** The app package: [subscribe] and [load] *)

Module App.

(** [ctx.app]. *)
Module Ctx.
Record t : Type := mk {
  requestDelay : Z;
  authTimeout : Z;
  requestTimeout : Z
}.
End Ctx.

(** [PartialSubscribeRequest]: every field but [filters] may be missing.
    (The handlers a request may carry travel with [...request] to the net
    package untouched and are left out.) *)
Module Partial.
Record t : Type := mk {
  filters : list Filter;
  relays : option (list string);
  closeOnEose : option bool;
  timeout : option Z;
  authTimeout : option Z;
  delay : option Z
}.
End Partial.

(** The object [subscribe] of the net package is called with. *)
Module Net.
Record t : Type := mk {
  delay : Z;
  timeout : Z;
  authTimeout : Z;
  relays : list string;
  filters : list Filter;
  closeOnEose : option bool
}.
End Net.

(** [getFilterResultCardinality] of the util package and the module-level
    [repository], neither among the sources: the first as typed (a count, or
    nothing when the filter does not bound its results), the second as the
    answers its [query] gives when [subscribe] runs. *)
Class Cache : Type := {
  getFilterResultCardinality : Filter -> option Z;
  repositoryQuery : list Filter -> list TrustedEvent
}.

(** What reaches the listeners of [sub.emitter]:
    [SubscriptionEvent.Event] with the relay url and the event, and
    [SubscriptionEvent.Complete]. *)
Inductive Emission : Type :=
| EventEmission (url : string) (event : TrustedEvent)
| CompleteEmission.

(** What a call of [subscribe] leaves behind: the request handed to the net
    package, and the callback given to [setTimeout], which runs in a later
    task and emits these on [sub.emitter]. *)
Record Subscribed : Type := mkSubscribed {
  request : Net.t;
  timer : list Emission
}.

(** JavaScript truthiness of an optional boolean field. *)
Definition truthy (b : option bool) : bool :=
  match b with Some true => true | _ => false end.

Section Subscribe.
Context `{Cache}.

(** The loop over [request.filters.splice(0)]: [kept] is [request.filters] as
    refilled so far; the result is [request.filters] and [events] when the
    loop is left. *)
Fixpoint shortcut (pending kept : list Filter) : list Filter * list TrustedEvent :=
  match pending with
  | [] => (kept, [])
  | flt :: pending' =>
      match getFilterResultCardinality flt with
      | Some cardinality =>
          let results := repositoryQuery [flt] in
          if Z.eqb (Z.of_nat (length results)) cardinality
          then (kept, results)                      (* break *)
          else shortcut pending' (kept ++ [flt])
      | None => shortcut pending' (kept ++ [flt])
      end
  end.

Definition subscribe (ctx : Ctx.t) (request : Partial.t) : Subscribed :=
  (* If we already have all results for any filter, don't send the filter to the network *)
  let cached :=
    if truthy (Partial.closeOnEose request)
    then shortcut (Partial.filters request) []
    else (Partial.filters request, []) in
  let filters := cached.1 in
  let events := cached.2 in
  let delay := Ctx.requestDelay ctx in
  let authTimeout := Ctx.authTimeout ctx in
  let timeout := if truthy (Partial.closeOnEose request) then Ctx.requestTimeout ctx else 0%Z in
  (* baseSubscribe({delay, timeout, authTimeout, relays: [], ...request}) *)
  {| request :=
       {| Net.delay := default delay (Partial.delay request);
          Net.timeout := default timeout (Partial.timeout request);
          Net.authTimeout := default authTimeout (Partial.authTimeout request);
          Net.relays := default [] (Partial.relays request);
          Net.filters := filters;
          Net.closeOnEose := Partial.closeOnEose request |};
     (* Keep cached results async so the caller can set up handlers *)
     timer := map (EventEmission Relays.LOCAL_RELAY_URL) events |}.

(** The object literal [{closeOnEose: true, timeout: ctx.app.requestTimeout,
    ...request}] of [load]. *)
Definition loadRequest (ctx : Ctx.t) (request : Partial.t) : Partial.t :=
  {| Partial.filters := Partial.filters request;
     Partial.relays := Partial.relays request;
     Partial.closeOnEose := Some (default true (Partial.closeOnEose request));
     Partial.timeout := Some (default (Ctx.requestTimeout ctx) (Partial.timeout request));
     Partial.authTimeout := Partial.authTimeout request;
     Partial.delay := Partial.delay request |}.

End Subscribe.

(** *** The emitter and the task queue *)

Section Emitter.
Context {S : Type}.

(** The listeners registered on an emitter, in the order of registration;
    each acts on the state [S] of whoever registered it. *)
Record Listeners : Type := mkListeners {
  onEvent : list (string -> TrustedEvent -> S -> S);
  onComplete : list (S -> S)
}.

Definition noListeners : Listeners := {| onEvent := []; onComplete := [] |}.

(** [emitter.emit(type, ...args)]: calls the listeners of that type in
    turn. *)
Definition emit (ls : Listeners) (x : Emission) (s : S) : S :=
  match x with
  | EventEmission url e => fold_left (fun s h => h url e s) (onEvent ls) s
  | CompleteEmission => fold_left (fun s h => h s) (onComplete ls) s
  end.

Definition emitAll (ls : Listeners) (xs : list Emission) (s : S) : S :=
  fold_left (fun s x => emit ls x s) xs s.

(** A task of the caller: it calls [subscribe] and then registers [ls] on the
    emitter of the subscription it got.  During the task the emitter emits
    nothing; the timer callback is queued and runs once the task is over,
    with the listeners registered by then. *)
Record Turn : Type := mkTurn {
  listeners : Listeners;
  queued : list (list Emission);
  heap : S
}.

Definition callerTask (sub : Subscribed) (ls : Listeners) (s : S) : Turn :=
  (* const sub = subscribe(request) *)
  let w := {| listeners := noListeners; queued := [timer sub]; heap := s |} in
  (* sub.emitter.on(...) *)
  {| listeners := ls; queued := queued w; heap := heap w |}.

(** The queued timer callbacks run, one task each. *)
Definition runQueued (w : Turn) : S :=
  fold_left (fun s task => emitAll (listeners w) task s) (queued w) (heap w).

End Emitter.
Arguments Listeners S : clear implicits.
Arguments Turn S : clear implicits.

(** *** [load] *)

(** The array [events] and the promise of one call of [load].  The promise is
    resolved with the array itself: its value, when it resolves, is what the
    array holds then. *)
Record Loading : Type := mkLoading {
  events : list TrustedEvent;
  resolved : bool
}.

Definition loadListeners : Listeners Loading :=
  {| onEvent := [fun (_ : string) e s => {| events := events s ++ [e]; resolved := resolved s |}];
     onComplete := [fun s => {| events := events s; resolved := true |}] |}.

Definition load `{Cache} (ctx : Ctx.t) (request : Partial.t) : Subscribed :=
  subscribe ctx (loadRequest ctx request).

(** The state of a [load] after its emitter has emitted [trace]. *)
Definition loadAfter (trace : list Emission) : Loading :=
  emitAll loadListeners trace {| events := []; resolved := false |}.

(** The events among some emissions. *)
Definition eventsOf (trace : list Emission) : list TrustedEvent :=
  flat_map (fun x => match x with
                     | EventEmission _ e => [e]
                     | CompleteEmission => []
                     end) trace.

Definition isComplete (x : Emission) : bool :=
  match x with CompleteEmission => true | EventEmission _ _ => false end.

End App.

(** ** The Router (contract) *)

Module Router.

(** Modelled from the spec: one of the "weighted relay-set contributions"
    of a scenario ([Selection] in the README). *)
Record Selection : Type := mkSelection {
  weight : Z;
  relays : list string
}.

(** Modelled from the spec: "a fallback policy is a pluggable function
    (currentCount, limit) -> howManyMoreToAdd". *)
Definition FallbackPolicy : Type := nat -> nat -> nat.

(** Modelled from the spec: the "pluggable callbacks" the claims use; a
    quality is a score in [0,1], kept here as the numerator of a fixed-point
    fraction. *)
Record RouterOptions : Type := mkOptions {
  getFallbackRelays : list string;
  getRelayQuality : string -> Z;
  getLimit : nat
}.

(** Modelled from the spec: a scenario, "a sequence of weighted relay-set
    contributions" with its fallback policy. *)
Record Scenario : Type := mkScenario {
  options : RouterOptions;
  selections : list Selection;
  policy : FallbackPolicy
}.

(** Modelled from the spec: the policy the spec words: fallbacks are added
    "if the result is empty or below a minimum threshold", "up to the
    limit". *)
Definition belowThreshold (threshold : nat) : FallbackPolicy :=
  fun count limit =>
    if (Nat.eqb count 0 || Nat.ltb count threshold)%bool then (limit - count)%nat else 0%nat.

(** Modelled from the spec: the policy of the README's example,
    [Math.max(0, limit - count)]. *)
Definition addMaximalFallbacks : FallbackPolicy :=
  fun count limit => (limit - count)%nat.

(** Modelled from the spec: the [Router] of the util package is not among
    the sources.  "(a) merging duplicate URLs by summing weight": the weight a
    url gathers over all the contributions that name it. *)
Definition combinedWeight (sels : list Selection) (url : string) : Z :=
  fold_right Z.add 0%Z
    (map (fun s => (weight s * Z.of_nat (length (filter (fun u => u = url) (relays s))))%Z) sels).

(** Modelled from the spec: the urls left after "merging duplicate URLs",
    in the order they were first contributed. *)
Definition mergedUrls (sels : list Selection) : list string :=
  uniq (flat_map relays sels).

(** Modelled from the spec: "(b) sorting descending by combined weight
    breaking ties by quality score". *)
Definition ranksBefore (sc : Scenario) (a b : string) : Prop :=
  (combinedWeight (selections sc) b < combinedWeight (selections sc) a)%Z
  \/ (combinedWeight (selections sc) a = combinedWeight (selections sc) b
      /\ (getRelayQuality (options sc) b <= getRelayQuality (options sc) a)%Z).

#[global] Instance ranksBefore_dec sc a b : Decision (ranksBefore sc a b).
Proof. unfold ranksBefore. apply _. Defined.

(** Modelled from the spec: steps (a) to (c): merge, sort, "truncating to
    getLimit()". *)
Definition primaryUrls (sc : Scenario) : list string :=
  take (getLimit (options sc))
       (merge_sort (ranksBefore sc) (mergedUrls (selections sc))).

(** Modelled from the spec: step (d), "appending fallback relays up to the
    limit", as many as the policy asks for. *)
Definition fallbackUrls (sc : Scenario) : list string :=
  let count := length (primaryUrls sc) in
  let limit := getLimit (options sc) in
  take (Nat.min (policy sc count limit) (limit - count)) (getFallbackRelays (options sc)).

(** Modelled from the spec: [getUrls()], the "final ordered relay list". *)
Definition getUrls (sc : Scenario) : list string :=
  primaryUrls sc ++ fallbackUrls sc.

End Router.

(** ** Vocabulary of the properties *)

(** A string is lower case when it holds no upper-case letter. *)
Fixpoint isLowerCase (s : string) : bool :=
  match s with
  | EmptyString => true
  | String c s' => negb (Relays.isUpperCase c) && isLowerCase s'
  end.

(** The values of the outcomes that are no failures, in order. *)
Definition resolved {A : Type} (outcomes : list (Result A)) : list A :=
  omap (fun outcome => match outcome with Ok a => Some a | Throw _ => None end) outcomes.

(** A relay is in the intersection when every item that contributed relays
    lists it. *)
Definition inEveryContribution (items : list RequestItem) (r : string) : Prop :=
  forall item, item ∈ items -> relays item <> [] -> r ∈ relays item.

(** A leaf feed the compiler handles. *)
Definition isLeaf (feed : Feed) : bool :=
  match feed with
  | FilterFeed _ | ListFeed _ | DVMFeed _ => true
  | _ => false
  end.

(** Every record of a repository is filed under its own id. *)
Definition wellFiled (r : Repository.t) : Prop :=
  forall i e, Repository.eventsById r !! i = Some e -> id e = i.

(** A filter is fully cached when its results are bounded and the
    repository already holds that many: the test of [subscribe]. *)
Definition fullyCached `{App.Cache} (f : Filter) : bool :=
  match App.getFilterResultCardinality f with
  | Some cardinality => Z.eqb (Z.of_nat (length (App.repositoryQuery [f]))) cardinality
  | None => false
  end.

(** A listener that writes down what it is called with. *)
Definition recorder : App.Listeners (list (string * TrustedEvent)) :=
  {| App.onEvent := [fun url e s => (s ++ [(url, e)])%list];
     App.onComplete := [] |}.

(** The feeds of a feed: itself, then those of its sub-feeds, in order. *)
Fixpoint nodes (feed : Feed) : list Feed :=
  feed ::
  match feed with
  | RelayFeed _ feeds
  | DifferenceFeed feeds | IntersectionFeed feeds
  | SymmetricDifferenceFeed feeds | UnionFeed feeds => flat_map nodes feeds
  | FilterFeed _ | ListFeed _ | LOLFeed _ | DVMFeed _ => []
  end.

(** [g] is [feed] or sits somewhere below it. *)
Inductive Within (g : Feed) : Feed -> Prop :=
| within_here : Within g g
| within_below (feed sub : Feed) :
    sub ∈ getSubFeeds feed -> Within g sub -> Within g feed.

(** A feed whose sub-feeds [canCompile] and [compile] go through: a relay,
    union or intersection feed. *)
Definition isComposite (feed : Feed) : bool :=
  match feed with
  | RelayFeed _ _ | UnionFeed _ | IntersectionFeed _ => true
  | _ => false
  end.

(** The first sub-feed that is not a leaf, if any. *)
Definition firstNonLeaf (feeds : list Feed) : option Feed :=
  List.find (fun g => negb (isLeaf g)) feeds.

(** The feed [[FeedType.Filter]], without a filter. *)
Definition emptyFilterFeed : Feed := FilterFeed [].

(** The request item [{relays: [], filters: []}]. *)
Definition emptyItem : RequestItem := {| relays := []; filters := [] |}.

(** Whether a trace of emissions holds a [Complete]. *)
Definition completes (trace : list App.Emission) : bool :=
  existsb App.isComplete trace.

(** What a pattern matches: the words of its language. *)
Inductive Matches : Regex.t -> list ascii -> Prop :=
| matches_eps : Matches Regex.Eps []
| matches_class (p : ascii -> bool) (c : ascii) :
    p c = true -> Matches (Regex.Class p) [c]
| matches_seq (r1 r2 : Regex.t) (w1 w2 : list ascii) :
    Matches r1 w1 -> Matches r2 w2 -> Matches (Regex.Seq r1 r2) (w1 ++ w2)%list
| matches_alt_l (r1 r2 : Regex.t) (w : list ascii) :
    Matches r1 w -> Matches (Regex.Alt r1 r2) w
| matches_alt_r (r1 r2 : Regex.t) (w : list ascii) :
    Matches r2 w -> Matches (Regex.Alt r1 r2) w
| matches_star_nil (r : Regex.t) : Matches (Regex.Star r) []
| matches_star_more (r : Regex.t) (w1 w2 : list ascii) :
    Matches r w1 -> Matches (Regex.Star r) w2 ->
    Matches (Regex.Star r) (w1 ++ w2)%list.

(** Every character of a string is of a class. *)
Fixpoint allChars (p : ascii -> bool) (s : string) : bool :=
  match s with
  | EmptyString => true
  | String c s' => p c && allChars p s'
  end.

Definition isLetter (c : ascii) : bool :=
  let n := nat_of_ascii c in
  ((65 <=? n)%nat && (n <=? 90)%nat || (97 <=? n)%nat && (n <=? 122)%nat)%bool.

(** The characters of a host name without digits: letters, "-" and ".". *)
Definition isHostChar (c : ascii) : bool :=
  isLetter c || Ascii.eqb c "-" || Ascii.eqb c ".".

Definition isBlankOrPercent (c : ascii) : bool :=
  Regex.isWhiteSpace c || Ascii.eqb c "%".

(** ** Instances for the examples *)

Module Examples.

(** [tag[0] === key], [tag[1]]. *)
Definition tagValue (key : string) (tag : list string) : option string :=
  match tag with
  | k :: v :: _ => if String.eqb k key then Some v else None
  | _ => None
  end.

(** The protocol constants as the relays use them: kinds 0, 3 and
    10000-19999 are replaceable, 30000-39999 addressable with the "d" tag
    distinguishing, kind 5 deletes the ids of its "e" tags. *)
Definition eventTagValues (key : string) (e : TrustedEvent) : list string :=
  flat_map (fun tag => match tagValue key tag with Some v => [v] | None => [] end) (tags e).

Definition isReplaceable (k : Z) : bool :=
  Z.eqb k 0 || Z.eqb k 3 || (Z.leb 10000 k && Z.ltb k 20000).

Definition isAddressable (k : Z) : bool := Z.leb 30000 k && Z.ltb k 40000.

Definition isDeletion (k : Z) : bool := Z.eqb k 5.

Lemma deletion_regular (k : Z) :
  isDeletion k = true -> isReplaceable k = false /\ isAddressable k = false.
Proof.
  unfold isDeletion. intros Hk. apply Z.eqb_eq in Hk. subst k. split; reflexivity.
Defined.

#[export] Instance protocol : Repository.Protocol := {|
  Repository.isReplaceableKind := isReplaceable;
  Repository.isAddressableKind := isAddressable;
  Repository.isDeletionKind := isDeletion;
  Repository.distinguishingTag e :=
    match eventTagValues "d" e with v :: _ => v | [] => "" end;
  Repository.deletedIds := eventTagValues "e";
  Repository.deletedAddresses _ := [];
  Repository.deletion_is_regular := deletion_regular
|}.

Definition note (i author : string) (at_ : Z) : TrustedEvent :=
  {| id := i; pubkey := author; created_at := at_; kind := 1; tags := [];
     content := ""; sig := "" |}.

(** A deletion event naming one id. *)
Definition deletionOf (i target : string) : TrustedEvent :=
  {| id := i; pubkey := "alice"; created_at := 20; kind := 5;
     tags := [["e"; target]]; content := ""; sig := "" |}.

(** A profile (kind 0, replaceable). *)
Definition profile (i author : string) (at_ : Z) : TrustedEvent :=
  {| id := i; pubkey := author; created_at := at_; kind := 0; tags := [];
     content := ""; sig := "" |}.

(** The object literal [{kinds: [0], authors: [author]}]. *)
Definition profileFilter (author : string) : Filter :=
  {| ids := None; authors := Some [author]; kinds := Some [0]; tagFilters := [];
     since := None; until := None; limit := None; search := None |}.

(** A repository holding one note, "a". *)
Definition repository : Repository.t :=
  Repository.load Repository.empty [note "a" "alice" 10].

(** Modelled from the spec: [getFilterResultCardinality] is not among the
    sources; "an ids filter with N ids has cardinality <= N", and other
    filters have no static bound. *)
Definition idsCardinality (f : Filter) : option Z :=
  match ids f with
  | Some xs => Some (Z.of_nat (length xs))
  | None => None
  end.

#[export] Instance cache : App.Cache := {|
  App.getFilterResultCardinality := idsCardinality;
  App.repositoryQuery := Repository.query repository
|}.

Definition ctx : App.Ctx.t :=
  {| App.Ctx.requestDelay := 50; App.Ctx.authTimeout := 300;
     App.Ctx.requestTimeout := 3000 |}.

(** The object literal [{kinds: [1]}]. *)
Definition notesFilter : Filter :=
  {| ids := None; authors := None; kinds := Some [1]; tagFilters := [];
     since := None; until := None; limit := None; search := None |}.

(** [{filters, closeOnEose}] with nothing else set. *)
Definition requestWith (fs : list Filter) (closeOnEose : option bool) : App.Partial.t :=
  {| App.Partial.filters := fs; App.Partial.relays := None;
     App.Partial.closeOnEose := closeOnEose; App.Partial.timeout := None;
     App.Partial.authTimeout := None; App.Partial.delay := None |}.

(** The lib helpers on urls that are already normal: [normalizeUrl] leaves
    them as they are and throws, as [new URL] does, on the empty string and
    on a string that holds white space; [stripProtocol] drops a leading
    "wss://" or "ws://". *)
#[export] Instance urlLib : Relays.UrlLib := {|
  Relays.normalizeUrl url :=
    if (String.eqb url "" || negb (allChars (fun c => negb (Regex.isWhiteSpace c)) url))%bool
    then Throw TypeError else Ok url;
  Relays.stripProtocol url :=
    if String.prefix "wss://" url then String.substring 6 (String.length url - 6) url
    else if String.prefix "ws://" url then String.substring 5 (String.length url - 5) url
    else url
|}.

(** Two runtimes: one in which the promises settle in the order they were
    made in, one in which the last made settles first. *)
#[export] Instance inOrder : Schedule := {|
  arrival _ xs := xs;
  arrival_Permutation A xs := Permutation_refl xs
|}.

Definition lastFirst : Schedule := {|
  arrival _ xs := reverse xs;
  arrival_Permutation A xs := reverse_Permutation xs
|}.

(** Filter lists intersected without merging; no groups to intersect is an
    error. *)
Definition concatGroups (groups : list (list Filter)) : Result (list Filter) :=
  match groups with [] => Throw TypeError | _ => Ok (concat groups) end.

Lemma concatGroups_error (groups : list (list Filter)) (type : string) :
  concatGroups groups <> Throw (UnableToConvert type).
Proof. by destruct groups. Qed.

(** A stand-in for the util package, enough to run the compiler: tags are
    read by key, ids make one [ids] filter, filter lists are united and
    intersected without merging. *)
#[export] Instance utilLib : UtilLib := {|
  now := 1700000000;
  unionFilters fs := fs;
  intersectFilters := concatGroups;
  getIdFilters xs := match xs with [] => [] | _ => [idsFilter xs] end;
  tagsFromEvent e := tags e;
  tagsFromEvents es := flat_map tags es;
  tagValues key ts :=
    flat_map (fun tag => match tag with
                         | k :: v :: _ =>
                             match key with
                             | Some key => if String.eqb k key then [v] else []
                             | None => [v]
                             end
                         | _ => []
                         end) ts;
  filterByKey keys ts :=
    List.filter (fun tag => match tag with k :: _ => includes keys k | [] => false end) ts;
  rejectByValue vs ts :=
    List.filter (fun tag => match tag with
                            | _ :: v :: _ => negb (bool_decide (Some v ∈ vs))
                            | _ => true
                            end) ts;
  tagRelays _ := [];
  requestOf _ := (None, None);
  intersectFilters_error := concatGroups_error
|}.

(** A compiler whose requests find the given events. *)
Definition compilerFinding (found : list TrustedEvent) : FeedCompiler.t :=
  FeedCompiler.new
    {| request := fun _ => Ok found;
       requestDvm := fun _ => Ok found;
       getPubkeysForScope := fun _ => [];
       getPubkeysForWotRange := fun _ _ => [] |}.

(** A note with tags. *)
Definition taggedNote (i : string) (ts : list (list string)) : TrustedEvent :=
  {| id := i; pubkey := "alice"; created_at := 10; kind := 1; tags := ts;
     content := ""; sig := "" |}.

(** The dynamic filter [{kinds: [1]}]. *)
Definition notesDynamicFilter : DynamicFilter :=
  {| rest := {| ids := None; authors := None; kinds := Some [1]; tagFilters := [];
                since := None; until := None; limit := None; search := None |};
     scopes := None; min_wot := None; max_wot := None;
     until_ago := None; since_ago := None |}.

(** The scenario of the spec: fallbacks [[F]], limit 3, one contribution of
    two relays, and a policy that fills up below three relays. *)
Definition scenario : Router.Scenario :=
  {| Router.options :=
       {| Router.getFallbackRelays := ["wss://f.example/"];
          Router.getRelayQuality := fun _ => 0%Z;
          Router.getLimit := 3 |};
     Router.selections :=
       [ {| Router.weight := 1; Router.relays := ["wss://a.example/"; "wss://b.example/"] |} ];
     Router.policy := Router.belowThreshold 3 |}.

End Examples.

(* ===================================================================== *)
(** * Part II. Properties                                                 *)
(* ===================================================================== *)

(** ** Relay urls *)

Section RelayUrlFacts.
Import Relays.

Lemma lowerCodeUnit_not_upper (c : ascii) : isUpperCase (lowerCodeUnit c) = false.
Proof.
  destruct c as [[] [] [] [] [] [] [] []]; vm_compute; reflexivity.
Qed.

Lemma toLowerCase_isLowerCase (s : string) : isLowerCase (toLowerCase s) = true.
Proof.
  induction s as [|c s IH]; simpl; [reflexivity|].
  rewrite lowerCodeUnit_not_upper, IH. reflexivity.
Qed.

Lemma isLowerCase_app (s1 s2 : string) :
  isLowerCase (s1 ++ s2) = isLowerCase s1 && isLowerCase s2.
Proof.
  induction s1 as [|c s1 IH]; simpl; [reflexivity|].
  rewrite IH. apply andb_assoc.
Qed.

Lemma includesSlash_app (s1 s2 : string) :
  includesSlash (s1 ++ s2) = includesSlash s1 || includesSlash s2.
Proof.
  induction s1 as [|c s1 IH]; simpl; [reflexivity|].
  destruct (Ascii.eqb c "/"); [reflexivity | exact IH].
Qed.

(** What [normalizeRelayUrl] does with a url that [normalizeUrl] accepts. *)
Lemma normalizeRelayUrl_Ok (lib : UrlLib) (url normal : string) (allowInsecure : bool) :
  normalizeUrl url = Ok normal ->
  let body := toLowerCase (stripProtocol normal) in
  normalizeRelayUrl url allowInsecure
  = Ok ((if allowInsecure
         then match wsPrefix url with Some p => p | None => "wss://" end
         else "wss://")
        ++ (if includesSlash body then body else body ++ "/")).
Proof.
  intros Hnormal body. unfold normalizeRelayUrl. rewrite Hnormal. simpl.
  fold body. by destruct (includesSlash body).
Qed.

(** It throws what [normalizeUrl] throws, and nothing else. *)
Lemma normalizeRelayUrl_Throw (lib : UrlLib) (url : string) (allowInsecure : bool)
    (e : Error) :
  normalizeRelayUrl url allowInsecure = Throw e <-> normalizeUrl url = Throw e.
Proof.
  unfold normalizeRelayUrl. destruct (normalizeUrl url); simpl; split; congruence.
Qed.

(** C9, as amended.  With default options [normalizeRelayUrl] throws on the
    urls [normalizeUrl] throws on, with the same error; for every other
    input it returns "wss://" followed by a remainder that is lower case and
    contains a "/": when the normalised, protocol-stripped url holds no "/",
    the remainder is that url with a "/" appended. *)
Theorem normalizeRelayUrl_default_shape (lib : UrlLib) (url : string) :
  (forall e, normalizeRelayUrlDefault url = Throw e <-> normalizeUrl url = Throw e)
  /\ (forall normal,
        normalizeUrl url = Ok normal ->
        let body := toLowerCase (stripProtocol normal) in
        exists remainder : string,
          normalizeRelayUrlDefault url = Ok ("wss://" ++ remainder)
          /\ isLowerCase remainder = true
          /\ includesSlash remainder = true
          /\ (includesSlash body = false -> remainder = body ++ "/")
          /\ (includesSlash body = true -> remainder = body))
  /\ (forall out,
        normalizeRelayUrlDefault url = Ok out ->
        exists remainder : string,
          out = "wss://" ++ remainder
          /\ isLowerCase remainder = true
          /\ includesSlash remainder = true).
Proof.
  assert (Hshape : forall normal,
            normalizeUrl url = Ok normal ->
            let body := toLowerCase (stripProtocol normal) in
            exists remainder : string,
              normalizeRelayUrlDefault url = Ok ("wss://" ++ remainder)
              /\ isLowerCase remainder = true
              /\ includesSlash remainder = true
              /\ (includesSlash body = false -> remainder = body ++ "/")
              /\ (includesSlash body = true -> remainder = body)).
  { intros normal Hnormal body. unfold normalizeRelayUrlDefault.
    rewrite (normalizeRelayUrl_Ok lib url normal false Hnormal). fold body.
    destruct (includesSlash body) eqn:Hs.
    - exists body. repeat split; try done. apply toLowerCase_isLowerCase.
    - exists (body ++ "/"). repeat split; try done.
      + rewrite isLowerCase_app. unfold body.
        rewrite toLowerCase_isLowerCase. reflexivity.
      + rewrite includesSlash_app, Hs. reflexivity. }
  split; [intros e; apply normalizeRelayUrl_Throw|].
  split; [exact Hshape|].
  intros out Hout. destruct (normalizeUrl url) as [normal|e] eqn:Hnormal.
  - destruct (Hshape normal eq_refl) as (remainder & Heq & Hlow & Hslash & _).
    exists remainder. rewrite Hout in Heq. injection Heq as ->. done.
  - unfold normalizeRelayUrlDefault, normalizeRelayUrl in Hout.
    rewrite Hnormal in Hout. done.
Qed.

(** C9 as stated fails: the empty string is an input string for which
    [normalizeRelayUrl] returns nothing, since [normalizeUrl] throws on it. *)
Lemma normalizeRelayUrl_throws_on_no_url :
  @normalizeRelayUrlDefault Examples.urlLib "" = Throw TypeError
  /\ @normalizeRelayUrlDefault Examples.urlLib "not a url" = Throw TypeError
  /\ (forall out, @normalizeRelayUrlDefault Examples.urlLib "" <> Ok out).
Proof. repeat split. intros out. discriminate. Qed.

(** On urls that are already normal. *)
Example normalizeRelayUrl_host :
  @normalizeRelayUrlDefault Examples.urlLib "wss://Relay.Example.COM"
  = Ok "wss://relay.example.com/".
Proof. vm_compute. reflexivity. Qed.

Example normalizeRelayUrl_path :
  @normalizeRelayUrlDefault Examples.urlLib "wss://relay.example.com/Inbox"
  = Ok "wss://relay.example.com/inbox".
Proof. vm_compute. reflexivity. Qed.

Example normalizeRelayUrl_insecure :
  @normalizeRelayUrl Examples.urlLib "ws://relay.example.com" true
  = Ok "ws://relay.example.com/".
Proof. vm_compute. reflexivity. Qed.

End RelayUrlFacts.

(** ** Maps that may throw, and promises *)

Section PromiseFacts.
Context {A B : Type}.

Lemma mapM_Ok (f : A -> Result B) (xs : list A) (ys : list B) :
  mapM f xs = Ok ys <-> Forall2 (fun x y => f x = Ok y) xs ys.
Proof.
  revert ys. induction xs as [|x xs IH]; intros ys; simpl.
  - split; [intros [= <-]; constructor | by inversion 1].
  - destruct (f x) as [b|e] eqn:Hfx.
    + destruct (mapM f xs) as [bs|e'] eqn:Hmap.
      * split.
        -- intros [= <-]. constructor; [done | by apply IH].
        -- inversion 1 as [|? y ? ys' Hy Hys]; subst.
           apply IH in Hys. congruence.
      * split; [done|]. inversion 1 as [|? y ? ys' Hy Hys]; subst.
        apply IH in Hys. congruence.
    + split; [done|]. inversion 1; congruence.
Qed.

Lemma mapM_isOk (f : A -> Result B) (xs : list A) :
  isOk (mapM f xs) = true <-> Forall (fun x => isOk (f x) = true) xs.
Proof.
  induction xs as [|x xs IH]; simpl.
  - split; [constructor | done].
  - destruct (f x) as [b|e] eqn:Hfx.
    + destruct (mapM f xs) as [bs|e']; simpl in *.
      * split; [intros _; constructor; [by rewrite Hfx | by apply IH] | done].
      * split; [done|]. inversion 1; subst. by apply IH.
    + split; [done|]. inversion 1 as [|? ? Hx]; subst. by rewrite Hfx in Hx.
Qed.

Lemma mapM_pure (g : A -> B) (xs : list A) :
  mapM (fun x => Ok (g x)) xs = Ok (map g xs).
Proof. induction xs as [|x xs IH]; simpl; [done|]. by rewrite IH. Qed.

Lemma mapM_Throw (f : A -> Result B) (xs : list A) (e : Error) :
  mapM f xs = Throw e -> exists x, x ∈ xs /\ f x = Throw e.
Proof.
  induction xs as [|x xs IH]; simpl; [done|].
  destruct (f x) as [b|e'] eqn:Hfx.
  - destruct (mapM f xs) as [bs|e'']; [done|].
    intros [= ->]. destruct IH as (y & Hy & Hfy); [done|].
    exists y. split; [by right | done].
  - intros [= ->]. exists x. split; [by left | done].
Qed.

Lemma sequence_map (f : A -> Result B) (xs : list A) :
  sequence (map f xs) = mapM f xs.
Proof.
  unfold sequence. induction xs as [|x xs IH]; simpl; [done|]. by rewrite IH.
Qed.

End PromiseFacts.

Section ArrivalFacts.
Context {sched : Schedule} {T : Type}.

Lemma arrival_elem_of (xs : list T) (x : T) : x ∈ arrival xs <-> x ∈ xs.
Proof. by rewrite (arrival_Permutation T xs). Qed.

Lemma arrival_Forall (P : T -> Prop) (xs : list T) :
  Forall P (arrival xs) <-> Forall P xs.
Proof. by rewrite (arrival_Permutation T xs). Qed.

(** One promise settles first and last. *)
Lemma arrival_singleton (x : T) : arrival [x] = [x].
Proof. apply Permutation_singleton_r, arrival_Permutation. Qed.

End ArrivalFacts.

Section SettlingFacts.
Context {A : Type}.

Lemma sequence_isOk (outcomes : list (Result A)) :
  isOk (sequence outcomes) = true <-> Forall (fun r => isOk r = true) outcomes.
Proof. apply mapM_isOk. Qed.

Lemma sequence_Throw (outcomes : list (Result A)) (e : Error) :
  sequence outcomes = Throw e -> Throw e ∈ outcomes.
Proof. intros (r & Hin & ->)%mapM_Throw. done. Qed.

Lemma sequence_resolved (outcomes : list (Result A)) (values : list A) :
  sequence outcomes = Ok values -> values = resolved outcomes.
Proof.
  intros Hseq%mapM_Ok. unfold resolved.
  induction Hseq as [|r v rs vs -> _ IH]; simpl; [done|]. by rewrite IH.
Qed.

Lemma sequence_all_Ok (outcomes : list (Result A)) :
  Forall (fun r => isOk r = true) outcomes ->
  sequence outcomes = Ok (resolved outcomes).
Proof.
  intros Hall%sequence_isOk.
  destruct (sequence outcomes) as [values|e] eqn:Hseq; [|done].
  by rewrite (sequence_resolved _ _ Hseq).
Qed.

Context {sched : Schedule}.

Lemma inArrivalOrder_isOk (promises : list (Result A)) :
  isOk (inArrivalOrder promises) = true
  <-> Forall (fun r => isOk r = true) promises.
Proof. unfold inArrivalOrder. by rewrite sequence_isOk, arrival_Forall. Qed.

Lemma inArrivalOrder_Throw (promises : list (Result A)) (e : Error) :
  inArrivalOrder promises = Throw e -> Throw e ∈ promises.
Proof.
  unfold inArrivalOrder. intros Hin. apply sequence_Throw in Hin.
  by apply (proj1 (arrival_elem_of _ _)) in Hin.
Qed.

(** When all resolve, the values come in some order. *)
Lemma inArrivalOrder_Ok (promises : list (Result A)) (values : list A) :
  inArrivalOrder promises = Ok values ->
  sequence promises = Ok (resolved promises) /\ values ≡ₚ resolved promises.
Proof.
  intros Hseq. split.
  - apply sequence_all_Ok, inArrivalOrder_isOk. by rewrite Hseq.
  - rewrite (sequence_resolved _ _ Hseq). unfold resolved.
    apply omap_Permutation, arrival_Permutation.
Qed.

Lemma promiseAll_Ok (promises : list (Result A)) (values : list A) :
  promiseAll promises = Ok values <-> sequence promises = Ok values.
Proof.
  unfold promiseAll.
  destruct (inArrivalOrder promises) as [vs|e] eqn:Harr; simpl; [done|].
  split; [done|]. intros Hseq.
  assert (isOk (inArrivalOrder promises) = true) as Hok.
  { apply inArrivalOrder_isOk, sequence_isOk. by rewrite Hseq. }
  by rewrite Harr in Hok.
Qed.

Lemma promiseAll_Throw (promises : list (Result A)) (e : Error) :
  promiseAll promises = Throw e -> Throw e ∈ promises.
Proof.
  unfold promiseAll.
  destruct (inArrivalOrder promises) as [vs|e'] eqn:Harr; simpl.
  - apply sequence_Throw.
  - intros [= ->]. by apply inArrivalOrder_Throw.
Qed.

Lemma promiseAll_isOk (promises : list (Result A)) :
  isOk (promiseAll promises) = true
  <-> Forall (fun r => isOk r = true) promises.
Proof.
  rewrite <- sequence_isOk.
  destruct (promiseAll promises) as [vs|e] eqn:Hall.
  - apply promiseAll_Ok in Hall. by rewrite Hall.
  - split; [done|]. intros Hok.
    destruct (sequence promises) as [vs|e'] eqn:Hseq; [|done].
    apply promiseAll_Ok in Hseq. congruence.
Qed.

Lemma Forall_isOk_map {X : Type} (f : X -> Result A) (xs : list X) :
  Forall (fun r => isOk r = true) (map f xs)
  <-> Forall (fun x => isOk (f x) = true) xs.
Proof. apply Forall_fmap. Qed.

Lemma elem_of_resolved (outcomes : list (Result A)) (v : A) :
  v ∈ resolved outcomes <-> Ok v ∈ outcomes.
Proof.
  unfold resolved. rewrite list_elem_of_omap. split.
  - intros ([v'|e] & Hin & [= ->]). done.
  - intros Hin. by exists (Ok v).
Qed.

Lemma inArrivalOrder_elem_of (promises : list (Result A)) (values : list A) (v : A) :
  inArrivalOrder promises = Ok values -> v ∈ values <-> Ok v ∈ promises.
Proof.
  intros [_ Hperm]%inArrivalOrder_Ok. by rewrite Hperm, elem_of_resolved.
Qed.

(** Promises of which some reject, all with the same error, reject with it,
    whichever settles first. *)
Lemma promiseAll_one_error (promises : list (Result A)) (e : Error) :
  Forall (fun r => isOk r = true \/ r = Throw e) promises ->
  Throw e ∈ promises ->
  promiseAll promises = Throw e.
Proof.
  intros Hall Hin.
  destruct (promiseAll promises) as [vs|e'] eqn:Hres.
  - assert (isOk (promiseAll promises) = true) as Hok by (by rewrite Hres).
    apply promiseAll_isOk in Hok. rewrite Forall_forall in Hok.
    by apply Hok in Hin.
  - apply promiseAll_Throw in Hres. rewrite Forall_forall in Hall.
    destruct (Hall _ Hres) as [?|[= ->]]; done.
Qed.

End SettlingFacts.

(** ** The feed compiler *)

Section FeedFacts.
Import FeedCompiler.
Context {sched : Schedule}.

(** *** [uniq] *)

Lemma elem_of_uniq (xs : list string) (x : string) : x ∈ uniq xs <-> x ∈ xs.
Proof.
  induction xs as [|y xs IH]; simpl; [reflexivity|].
  rewrite !elem_of_cons, list_elem_of_filter, IH.
  destruct (decide (x = y)); naive_solver.
Qed.

Lemma NoDup_uniq (xs : list string) : NoDup (uniq xs).
Proof.
  induction xs as [|y xs IH]; simpl; [constructor|].
  constructor.
  - rewrite list_elem_of_filter. naive_solver.
  - by apply NoDup_filter.
Qed.

(** *** The relay part of an intersection *)

Lemma elem_of_narrow (acc : list string) (item : RequestItem) (r : string) :
  r ∈ narrow acc item <-> r ∈ acc /\ (relays item <> [] -> r ∈ relays item).
Proof.
  unfold narrow. destruct (relays item) as [|u us] eqn:Hrel; simpl.
  - naive_solver.
  - rewrite list_elem_of_filter. unfold includes.
    rewrite bool_decide_spec. naive_solver.
Qed.

Lemma elem_of_fold_narrow (items : list RequestItem) (acc : list string) (r : string) :
  r ∈ fold_left narrow items acc
  <-> r ∈ acc /\ forall item, item ∈ items -> relays item <> [] -> r ∈ relays item.
Proof.
  revert acc. induction items as [|item items IH]; intros acc; simpl.
  - split; [intros Hr; split; [done|] | tauto].
    intros item Hin. by apply elem_of_nil in Hin.
  - rewrite IH, elem_of_narrow. split.
    + intros [[Hacc Hitem] Hrest]. split; [done|].
      intros item' Hin. apply elem_of_cons in Hin as [->|Hin]; auto.
    + intros [Hacc Hall]. repeat split; [done| |].
      * apply Hall. by left.
      * intros item' Hin. apply Hall. by right.
Qed.

Lemma NoDup_fold_narrow (items : list RequestItem) (acc : list string) :
  NoDup acc -> NoDup (fold_left narrow items acc).
Proof.
  revert acc. induction items as [|item items IH]; intros acc Hnd; simpl; [done|].
  apply IH. unfold narrow.
  destruct (negb _); [by apply NoDup_filter | done].
Qed.

Lemma intersectRelays_unfold (items : list RequestItem) :
  intersectRelays items =
    let relays0 := uniq (flat_map relays items) in
    let relays1 := fold_left narrow items relays0 in
    if negb (Nat.eqb (length relays0) 0) && Nat.eqb (length relays1) 0
    then (relays1 ++ [Relays.BOGUS_RELAY_URL])%list else relays1.
Proof. reflexivity. Qed.

Lemma elem_of_flat_map_relays (items : list RequestItem) (r : string) :
  r ∈ flat_map relays items <-> exists item, item ∈ items /\ r ∈ relays item.
Proof.
  rewrite list_elem_of_In, in_flat_map.
  split; intros (item & Hin & Hr); exists item.
  - by rewrite !list_elem_of_In.
  - by rewrite <- !list_elem_of_In.
Qed.

(** What lines 86 to 97 make of the compiled [items].  The relay list is
    - empty, if no item contributed a relay;
    - otherwise, if some relay is listed by every item that contributed
      relays: exactly those relays, each once;
    - otherwise (relays were contributed but none is common): the single
      url [BOGUS_RELAY_URL]. *)
Lemma intersectRelays_cases (items : list RequestItem) :
  let result := intersectRelays items in
  ((forall item, item ∈ items -> relays item = []) -> result = [])
  /\ ((exists item, item ∈ items /\ relays item <> []) ->
      (exists r, inEveryContribution items r) ->
      NoDup result /\ forall r, r ∈ result <-> inEveryContribution items r)
  /\ ((exists item, item ∈ items /\ relays item <> []) ->
      (forall r, ~ inEveryContribution items r) ->
      result = [Relays.BOGUS_RELAY_URL]).
Proof.
  simpl. rewrite intersectRelays_unfold. cbv zeta.
  set (relays0 := uniq (flat_map relays items)).
  set (relays1 := fold_left narrow items relays0).
  assert (Hmem1 : forall r : string, r ∈ relays1 <->
            (exists item, item ∈ items /\ r ∈ relays item) /\ inEveryContribution items r).
  { intros r. unfold relays1, relays0.
    by rewrite elem_of_fold_narrow, elem_of_uniq, elem_of_flat_map_relays. }
  split; [|split].
  - intros Hnone.
    assert (relays0 = []) as Hr0.
    { apply elem_of_nil_inv. intros r. unfold relays0.
      rewrite elem_of_uniq, elem_of_flat_map_relays.
      intros (item & Hin & Hr). rewrite (Hnone item Hin) in Hr.
      by apply elem_of_nil in Hr. }
    assert (relays1 = []) as Hr1.
    { apply elem_of_nil_inv. intros r Hr. apply Hmem1 in Hr as [(item & Hin & Hr) _].
      rewrite (Hnone item Hin) in Hr. by apply elem_of_nil in Hr. }
    by rewrite Hr0, Hr1.
  - intros (item & Hin & Hne) (r0 & Hr0).
    assert (r0 ∈ relays1) as Hin1.
    { apply Hmem1. split; [|done]. exists item. split; [done|]. by apply Hr0. }
    assert (Nat.eqb (length relays1) 0 = false) as ->.
    { destruct relays1; [by apply elem_of_nil in Hin1 | done]. }
    rewrite andb_false_r. split.
    + apply NoDup_fold_narrow, NoDup_uniq.
    + intros r. rewrite Hmem1. split; [tauto|].
      intros Hr. split; [|done]. exists item. split; [done|]. by apply Hr.
  - intros (item & Hin & Hne) Hnone.
    assert (relays1 = []) as ->.
    { apply elem_of_nil_inv. intros r Hr. apply Hmem1 in Hr as [_ Hr].
      by apply (Hnone r). }
    assert (Nat.eqb (length relays0) 0 = false) as ->.
    { destruct (relays item) as [|u us] eqn:Hrel; [done|].
      assert (u ∈ relays0) as Hu.
      { unfold relays0. rewrite elem_of_uniq, elem_of_flat_map_relays.
        exists item. split; [done|]. rewrite Hrel. by left. }
      destruct relays0; [by apply elem_of_nil in Hu | done]. }
    reflexivity.
Qed.

(** Two items with a common relay and one without relays; two items without
    a common relay. *)
Example intersectRelays_common :
  intersectRelays
    [ {| relays := ["wss://a/"; "wss://b/"]; filters := [] |};
      {| relays := []; filters := [] |};
      {| relays := ["wss://b/"; "wss://c/"]; filters := [] |} ]
  = ["wss://b/"].
Proof. vm_compute. reflexivity. Qed.

Example intersectRelays_disjoint :
  intersectRelays
    [ {| relays := ["wss://a/"]; filters := [] |};
      {| relays := ["wss://c/"]; filters := [] |} ]
  = ["bogus://welshman.relay"].
Proof. vm_compute. reflexivity. Qed.

(** *** The methods [compile] dispatches to *)

Lemma compile_union (lib : UtilLib) (self : FeedCompiler.t) (feeds : list Feed) :
  compile (Some self) (UnionFeed feeds) = _compileUnion self feeds.
Proof. reflexivity. Qed.

Lemma compile_intersection (lib : UtilLib) (self : FeedCompiler.t) (feeds : list Feed) :
  compile (Some self) (IntersectionFeed feeds) = _compileIntersection self feeds.
Proof. reflexivity. Qed.

Lemma compile_relay (lib : UtilLib) (self : FeedCompiler.t) (urls : list string)
    (feeds : list Feed) :
  compile (Some self) (RelayFeed urls feeds)
  = (union <- _compileUnion self feeds ;;
     Ok {| relays := relays union ++ urls; filters := filters union |}).
Proof.
  unfold _compileUnion. cbn [compile withThis].
  by destruct (inArrivalOrder _).
Qed.

(** On the compiler a filter feed always compiles: to no relay and the
    compiled filters, one for each dynamic filter, in order. *)
Lemma compile_filter_feed (lib : UtilLib) (self : FeedCompiler.t)
    (dfs : list DynamicFilter) :
  compile (Some self) (FilterFeed dfs)
  = Ok {| relays := []; filters := map (_compileFilter self) dfs |}.
Proof. simpl. by rewrite (mapM_pure (_compileFilter self)). Qed.

(** *** [compile] without its receiver *)

Lemma compile_unbound (lib : UtilLib) (feed : Feed) :
  compile None feed
  = match feed with
    | FilterFeed [] => Ok emptyItem
    | DifferenceFeed _ | SymmetricDifferenceFeed _ | LOLFeed _ =>
        Throw (UnableToConvert (FeedType.value (feedType feed)))
    | _ => Throw TypeError
    end.
Proof. destruct feed as [| | | | |[|df dfs]| | |]; reflexivity. Qed.

Lemma compile_unbound_Ok (lib : UtilLib) (feed : Feed) (item : RequestItem) :
  compile None feed = Ok item <-> feed = emptyFilterFeed /\ item = emptyItem.
Proof.
  rewrite compile_unbound. unfold emptyFilterFeed.
  destruct feed as [| | | | |[|df dfs]| | |]; split; try done;
    try (intros [? ?]; congruence).
  intros [= <-]. done.
Qed.

Lemma fold_narrow_nil (items : list RequestItem) : fold_left narrow items [] = [].
Proof.
  induction items as [|item items IH]; simpl; [done|].
  unfold narrow at 2. by destruct (negb _).
Qed.

Lemma intersectRelays_no_relays (items : list RequestItem) :
  Forall (fun item => relays item = []) items -> intersectRelays items = [].
Proof.
  intros Hall. unfold intersectRelays.
  assert (flat_map relays items = []) as ->.
  { induction Hall as [|item items Hitem _ IH]; simpl; [done|]. by rewrite Hitem, IH. }
  simpl. by rewrite fold_narrow_nil.
Qed.

(** The sub-feeds of an intersection are compiled without the receiver: all
    of them resolve only when each is a filter feed without filters. *)
Lemma compile_unbound_all (lib : UtilLib) (feeds : list Feed) (items : list RequestItem) :
  promiseAll (map (compile None) feeds) = Ok items
  <-> Forall (fun sub => sub = emptyFilterFeed) feeds
      /\ items = map (fun _ => emptyItem) feeds.
Proof.
  rewrite promiseAll_Ok, sequence_map, mapM_Ok. split.
  - induction 1 as [|sub sub_item feeds items Hsub _ [IH1 IH2]]; [done|].
    apply compile_unbound_Ok in Hsub as [-> ->]. split; [by constructor|].
    simpl. by rewrite IH2.
  - intros [Hfeeds ->].
    induction Hfeeds as [|sub feeds -> _ IH]; simpl; by constructor.
Qed.

(** So a compiled intersection never has a relay. *)
Lemma compile_intersection_Ok (lib : UtilLib) (self : FeedCompiler.t)
    (feeds : list Feed) (item : RequestItem) :
  compile (Some self) (IntersectionFeed feeds) = Ok item
  <-> Forall (fun sub => sub = emptyFilterFeed) feeds
      /\ exists fs, intersectFilters (map (fun _ => []) feeds) = Ok fs
                    /\ item = {| relays := []; filters := fs |}.
Proof.
  rewrite compile_intersection. unfold _compileIntersection.
  assert (Hitems :
            intersectionOfItems (map (fun _ => emptyItem) feeds)
            = (fs <- intersectFilters (map (fun _ : Feed => []) feeds) ;;
               Ok {| relays := []; filters := fs |})).
  { unfold intersectionOfItems. rewrite map_map. simpl.
    rewrite intersectRelays_no_relays; [done|].
    apply Forall_forall. intros x Hx.
    apply list_elem_of_fmap in Hx as (sub & -> & _). done. }
  split.
  - destruct (promiseAll _) as [items|e] eqn:Hall; simpl; [|done].
    apply compile_unbound_all in Hall as [Hfeeds ->].
    rewrite Hitems.
    destruct (intersectFilters _) as [fs|e]; simpl; [|done].
    intros [= <-]. split; [done|]. by exists fs.
  - intros (Hfeeds & fs & Hfs & ->).
    assert (promiseAll (map (compile None) feeds)
            = Ok (map (fun _ => emptyItem) feeds)) as ->.
    { by apply compile_unbound_all. }
    simpl. rewrite Hitems, Hfs. done.
Qed.

(** C4, at an input on which it fails.  Two relay feeds, each of which
    compiles to its own relay: by lines 86 to 97 their intersection would
    have the relay they share, or [BOGUS_RELAY_URL] when they share none.
    The intersection feed does not compile: [_compileIntersection] maps
    [this.compile] as a bare callback, so each sub-feed rejects with the
    [TypeError] of a property read off an undefined [this].  Whenever an
    intersection feed does compile, its relay list is empty. *)
Theorem compileIntersection_relays (lib : UtilLib) (self : FeedCompiler.t)
    (a b : string) (df : DynamicFilter) :
  let subA := RelayFeed [a] [FilterFeed [df]] in
  let subB := RelayFeed [b] [FilterFeed [df]] in
  let item (url : string) :=
    {| relays := [url]; filters := unionFilters [_compileFilter self df] |} in
  compile (Some self) subA = Ok (item a)
  /\ compile (Some self) subB = Ok (item b)
  /\ (a <> b -> intersectRelays [item a; item b] = [Relays.BOGUS_RELAY_URL])
  /\ (forall r, r ∈ intersectRelays [item a; item a] <-> r = a)
  /\ compile (Some self) (IntersectionFeed [subA; subB]) = Throw TypeError
  /\ compile (Some self) (IntersectionFeed [subA; subA]) = Throw TypeError
  /\ (forall feeds result,
        compile (Some self) (IntersectionFeed feeds) = Ok result ->
        relays result = []).
Proof.
  cbv zeta.
  assert (Hsub : forall url,
            compile (Some self) (RelayFeed [url] [FilterFeed [df]])
            = Ok {| relays := [url]; filters := unionFilters [_compileFilter self df] |}).
  { intros url. rewrite compile_relay. unfold _compileUnion.
    cbn [map]. rewrite compile_filter_feed.
    unfold inArrivalOrder. rewrite arrival_singleton. reflexivity. }
  assert (Hrejects : forall subs,
            Forall (fun sub => exists url, sub = RelayFeed [url] [FilterFeed [df]]) subs ->
            subs <> [] ->
            compile (Some self) (IntersectionFeed subs) = Throw TypeError).
  { intros subs Hsubs Hne. rewrite compile_intersection. unfold _compileIntersection.
    rewrite (promiseAll_one_error _ TypeError); [done| |].
    - apply Forall_fmap. eapply Forall_impl; [exact Hsubs|].
      intros sub [url ->]. by right.
    - destruct subs as [|sub subs]; [done|]. apply Forall_cons in Hsubs as [[url ->] _].
      by left. }
  split; [apply Hsub|]. split; [apply Hsub|]. split; [|split; [|split; [|split]]].
  - intros Hab. apply intersectRelays_cases.
    + eexists. split; [by left | done].
    + intros r Hr.
      assert (r ∈ [a]) as Ha by (apply (Hr _ ltac:(by left)); done).
      assert (r ∈ [b]) as Hb by (apply (Hr _ ltac:(by right; left)); done).
      apply list_elem_of_singleton in Ha, Hb. congruence.
  - assert (Hevery : forall r, inEveryContribution
              [ {| relays := [a]; filters := unionFilters [_compileFilter self df] |};
                {| relays := [a]; filters := unionFilters [_compileFilter self df] |} ] r
              <-> r = a).
    { intros r. split.
      - intros Hr. apply list_elem_of_singleton. apply (Hr _ ltac:(by left)). done.
      - intros -> item Hin _.
        apply elem_of_cons in Hin as [->|Hin]; [by left|].
        apply list_elem_of_singleton in Hin as ->. by left. }
    intros r. rewrite <- Hevery. apply intersectRelays_cases.
    + eexists. split; [by left | done].
    + exists a. by apply Hevery.
  - apply Hrejects; [|done]. repeat constructor; by eexists.
  - apply Hrejects; [|done]. repeat constructor; by eexists.
  - intros feeds result (_ & fs & _ & ->)%compile_intersection_Ok. done.
Qed.

(** *** [canCompile] against [compile] *)

(** The source's [canCompile] asks [getSubFeeds] for the sub-feeds. *)
Lemma canCompile_getSubFeeds (lib : UtilLib) (this : option FeedCompiler.t) (feed : Feed) :
  feedType feed = FeedType.Relay \/ feedType feed = FeedType.Union
  \/ feedType feed = FeedType.Intersection ->
  canCompile this feed = withThis this (fun _ => every (canCompile None) (getSubFeeds feed)).
Proof. destruct feed; simpl; intros [?|[?|?]]; congruence. Qed.

(** Run as a bare callback, [canCompile] answers [true] on the leaves only:
    on a relay, union or intersection feed it throws. *)
Lemma canCompile_unbound_true (lib : UtilLib) (feed : Feed) :
  canCompile None feed = Ok true <-> isLeaf feed = true.
Proof. destruct feed; simpl; split; congruence. Qed.

Lemma every_true {A : Type} (f : A -> Result bool) (xs : list A) :
  every f xs = Ok true <-> Forall (fun x => f x = Ok true) xs.
Proof.
  induction xs as [|x xs IH]; simpl.
  - split; [constructor | reflexivity].
  - destruct (f x) as [[]|e] eqn:Hfx.
    + rewrite IH. split; [by constructor | by inversion 1].
    + split; [congruence | inversion 1; congruence].
    + split; [congruence | inversion 1; congruence].
Qed.

(** Called on the compiler, [canCompile] answers [true] exactly on the
    leaves and on the relay, union and intersection feeds of leaves. *)
Lemma canCompile_true_iff (lib : UtilLib) (self : FeedCompiler.t) (feed : Feed) :
  canCompile (Some self) feed = Ok true
  <-> isLeaf feed = true
      \/ ((feedType feed = FeedType.Relay \/ feedType feed = FeedType.Union
           \/ feedType feed = FeedType.Intersection)
          /\ Forall (fun sub => isLeaf sub = true) (getSubFeeds feed)).
Proof.
  assert (Hsub : forall feeds,
            every (canCompile None) feeds = Ok true
            <-> Forall (fun sub => isLeaf sub = true) feeds).
  { intros feeds. rewrite every_true. apply Forall_iff.
    intros sub. exact (canCompile_unbound_true lib sub). }
  destruct feed; simpl; rewrite ?Hsub; split;
    try (intros [?|[[?|[?|?]] ?]]; congruence); try (by left);
    try (intros ?; right; split; [auto | done]); try congruence.
Qed.

(** C8, at the input on which it fails.  An intersection of one filter feed
    with one filter: [canCompile] answers [true], and [compile] rejects, with
    the [TypeError] of [this._compileFilter] read off an undefined [this]
    ([_compileIntersection] maps [this.compile] as a bare callback).  The
    error is not the "Unable to convert feed" one. *)
Theorem canCompile_true_compile_rejects (lib : UtilLib) (self : FeedCompiler.t)
    (df : DynamicFilter) :
  let feed := IntersectionFeed [FilterFeed [df]] in
  canCompile (Some self) feed = Ok true
  /\ compile (Some self) feed = Throw TypeError
  /\ compile (Some self) (UnionFeed [FilterFeed [df]])
     = Ok (unionOfItems [ {| relays := []; filters := [_compileFilter self df] |} ]).
Proof.
  cbv zeta. split; [reflexivity|]. split.
  - rewrite compile_intersection. unfold _compileIntersection.
    rewrite (promiseAll_one_error _ TypeError); [done| |].
    + constructor; [by right | constructor].
    + apply list_elem_of_here.
  - rewrite compile_union. unfold _compileUnion. cbn [map].
    rewrite compile_filter_feed. unfold inArrivalOrder.
    rewrite arrival_singleton. reflexivity.
Qed.

(** A leaf never fails with the "Unable to convert feed" error, whatever
    the receiver, as long as the collaborators do not reject with it. *)
Lemma compile_leaf_not_unable (lib : UtilLib) (self : FeedCompiler.t)
    (this : option FeedCompiler.t) (feed : Feed) (type : string) :
  (forall item ty, request (options self) item <> Throw (UnableToConvert ty)) ->
  (forall item ty, requestDvm (options self) item <> Throw (UnableToConvert ty)) ->
  this = None \/ this = Some self ->
  isLeaf feed = true ->
  compile this feed <> Throw (UnableToConvert type).
Proof.
  intros Hreq Hdvm Hthis Hleaf.
  destruct feed as [urls feeds|feeds|feeds|feeds|feeds|dfs|addresses|addresses|requests];
    try done; simpl.
  - destruct (mapM _ dfs) as [fs|e] eqn:Hmap; simpl; [done|].
    apply mapM_Throw in Hmap as (df & _ & Hdf).
    destruct this; simpl in Hdf; congruence.
  - destruct Hthis as [-> | ->]; simpl; [done|].
    unfold _compileLists.
    destruct (request _ _) as [events|e] eqn:Hr; simpl; [done|].
    intros [= ->]. by apply Hreq in Hr.
  - destruct Hthis as [-> | ->]; simpl; [done|].
    unfold _compileDvms.
    destruct (promiseAll _) as [responses|e] eqn:Hmap; simpl; [done|].
    intros [= ->]. apply promiseAll_Throw in Hmap.
    apply list_elem_of_fmap in Hmap as (item & Hitem & _).
    symmetry in Hitem. by apply Hdvm in Hitem.
Qed.

(** X3. The half of C8 the code keeps: when [canCompile] answers [true],
    [compile] does not fail with the "Unable to convert feed" error. *)
Lemma canCompile_true_not_unable (lib : UtilLib) (self : FeedCompiler.t)
    (feed : Feed) (type : string) :
  (forall item ty, request (options self) item <> Throw (UnableToConvert ty)) ->
  (forall item ty, requestDvm (options self) item <> Throw (UnableToConvert ty)) ->
  canCompile (Some self) feed = Ok true ->
  compile (Some self) feed <> Throw (UnableToConvert type).
Proof.
  intros Hreq Hdvm Hcan.
  apply (canCompile_true_iff lib self feed) in Hcan as [Hleaf|[Htype Hsubs]].
  { apply (compile_leaf_not_unable lib self); auto. }
  assert (Hsub : forall this feeds,
            this = None \/ this = Some self ->
            Forall (fun sub => isLeaf sub = true) feeds ->
            Throw (UnableToConvert type) ∉ map (compile this) feeds).
  { intros this feeds Hthis Hleaves Hmap.
    apply list_elem_of_fmap in Hmap as (sub & Hthrow & Hin).
    rewrite Forall_forall in Hleaves. symmetry in Hthrow.
    apply (compile_leaf_not_unable lib self this sub type); auto. }
  assert (Hunion : forall feeds,
            Forall (fun sub => isLeaf sub = true) feeds ->
            _compileUnion self feeds <> Throw (UnableToConvert type)).
  { intros feeds Hleaves. unfold _compileUnion.
    destruct (inArrivalOrder _) as [items|e] eqn:Hmap; simpl; [done|].
    intros [= ->]. apply inArrivalOrder_Throw in Hmap.
    by apply (Hsub (Some self) feeds); [right| |]. }
  destruct feed as [urls feeds|feeds|feeds|feeds|feeds|dfs|addresses|addresses|requests];
    simpl in Hsubs, Htype; try (destruct Htype as [?|[?|?]]; congruence).
  - rewrite compile_relay.
    destruct (_compileUnion self feeds) as [union|e] eqn:Hunion'; simpl; [done|].
    intros [= ->]. by apply (Hunion feeds).
  - rewrite compile_intersection. unfold _compileIntersection.
    destruct (promiseAll _) as [items|e] eqn:Hmap; simpl.
    + unfold intersectionOfItems.
      destruct (intersectFilters _) as [fs|e] eqn:Hfs; simpl; [done|].
      intros [= ->]. by apply intersectFilters_error in Hfs.
    + intros [= ->]. apply promiseAll_Throw in Hmap.
      by apply (Hsub None feeds); [left| |].
  - rewrite compile_union. by apply Hunion.
Qed.

(** *** Filters read off tags *)

Lemma matchFilter_no_authors (e : TrustedEvent) :
  matchFilter (authorsFilter []) e = false.
Proof. reflexivity. Qed.

(** C10. [_getFiltersFromTags] never returns the empty list; when the tags
    yield no "#t", authors or id/address filter it returns exactly
    [{authors: []}], which no event matches; so a list feed and a DVM feed
    whose responses yield no filter compile to a request matching nothing. *)
Theorem getFiltersFromTags_never_empty (lib : UtilLib) (tags : Tags) :
  _getFiltersFromTags tags <> []
  /\ (tagFilterList tags = [] -> _getFiltersFromTags tags = [authorsFilter []])
  /\ (tagFilterList tags <> [] -> _getFiltersFromTags tags = tagFilterList tags)
  /\ (forall e, matchFilters [authorsFilter []] e = false)
  /\ (forall self addresses events,
        request (options self) {| relays := []; filters := getIdFilters addresses |}
          = Ok events ->
        tagFilterList (tagsFromEvents events) = [] ->
        compile (Some self) (ListFeed addresses)
          = Ok {| relays := []; filters := [authorsFilter []] |})
  /\ (forall self requests responses,
        mapM (requestDvm (options self)) requests = Ok responses ->
        tagFilterList (concat (map dvmResponseTags (concat responses))) = [] ->
        exists urls,
          compile (Some self) (DVMFeed requests)
            = Ok {| relays := urls; filters := [authorsFilter []] |}).
Proof.
  unfold _getFiltersFromTags.
  repeat split.
  - destruct (tagFilterList tags); simpl; congruence.
  - by intros ->.
  - intros Hne. by destruct (tagFilterList tags).
  - intros self addresses events Hreq Hnone. simpl.
    unfold _compileLists, _getFiltersFromTags. rewrite Hreq. simpl.
    by rewrite Hnone.
  - intros self requests responses Hreq Hnone. simpl.
    unfold _compileDvms, _getFiltersFromTags.
    rewrite <- sequence_map in Hreq. apply promiseAll_Ok in Hreq.
    rewrite Hreq. simpl. rewrite Hnone. simpl. eauto.
Qed.

(** When no tag yields a value, no filter is read off the tags. *)
Lemma tagFilterList_nil (lib : UtilLib) (tags : Tags) :
  tagValues (Some "t") tags = [] ->
  tagValues (Some "p") tags = [] ->
  tagValues None (filterByKey ["e"; "a"] tags) = [] ->
  tagFilterList tags = [].
Proof. unfold tagFilterList. by intros -> -> ->. Qed.

End FeedFacts.

Section FeedExamples.
Import FeedCompiler.
#[local] Existing Instance Examples.utilLib.
#[local] Existing Instance Examples.inOrder.

(** A list whose events carry a topic and an author tag. *)
Example compile_list_with_tags :
  compile (Some (Examples.compilerFinding
                   [Examples.taggedNote "l" [["t"; "nostr"]; ["p"; "bob"]]]))
          (ListFeed ["30003:alice:friends"])
  = Ok {| relays := []; filters := [topicFilter ["nostr"]; authorsFilter ["bob"]] |}.
Proof. vm_compute. reflexivity. Qed.

(** A list whose events carry no usable tag. *)
Example compile_list_without_tags :
  compile (Some (Examples.compilerFinding [Examples.taggedNote "l" [["x"; "y"]]]))
          (ListFeed ["30003:alice:friends"])
  = Ok {| relays := []; filters := [authorsFilter []] |}.
Proof. vm_compute. reflexivity. Qed.

(** The same filter feed under a union and under an intersection. *)
Example compile_union_of_filter :
  isOk (compile (Some (Examples.compilerFinding []))
          (UnionFeed [FilterFeed [Examples.notesDynamicFilter]])) = true.
Proof. vm_compute. reflexivity. Qed.

Example compile_intersection_of_filter :
  compile (Some (Examples.compilerFinding []))
          (IntersectionFeed [FilterFeed [Examples.notesDynamicFilter]])
  = Throw TypeError.
Proof. vm_compute. reflexivity. Qed.

(** A union of two relay feeds: the relays come in the order the sub-feeds
    resolved in. *)
Example compile_union_in_order :
  compile (Some (Examples.compilerFinding []))
          (UnionFeed [RelayFeed ["wss://a/"] []; RelayFeed ["wss://b/"] []])
  = Ok {| relays := ["wss://a/"; "wss://b/"]; filters := [] |}.
Proof. vm_compute. reflexivity. Qed.

Example compile_union_last_first :
  @compile Examples.utilLib Examples.lastFirst (Some (Examples.compilerFinding []))
          (UnionFeed [RelayFeed ["wss://a/"] []; RelayFeed ["wss://b/"] []])
  = Ok {| relays := ["wss://b/"; "wss://a/"]; filters := [] |}.
Proof. vm_compute. reflexivity. Qed.

(** An intersection without sub-feeds: [intersectFilters] has no group to
    start from. *)
Example compile_intersection_of_nothing :
  compile (Some (Examples.compilerFinding [])) (IntersectionFeed []) = Throw TypeError.
Proof. vm_compute. reflexivity. Qed.

(** Nested set operations: [canCompile] itself throws. *)
Example canCompile_nested_throws :
  canCompile (Some (Examples.compilerFinding []))
             (UnionFeed [UnionFeed [FilterFeed []]])
  = Throw TypeError.
Proof. vm_compute. reflexivity. Qed.

End FeedExamples.

(** ** [subscribe] and [load] *)

Section AppFacts.
Import App.

(** *** The local-cache shortcut *)

(** The loop stops at the first fully cached filter: [request.filters] is
    left with the filters before it, and [events] with its results. *)
Lemma shortcut_stops (cache : Cache) (pre post kept : list Filter) (f : Filter) :
  Forall (fun g => fullyCached g = false) pre ->
  fullyCached f = true ->
  shortcut (pre ++ f :: post) kept = ((kept ++ pre)%list, repositoryQuery [f]).
Proof.
  revert kept. induction pre as [|g pre IH]; intros kept Hpre Hf; simpl.
  - unfold fullyCached in Hf.
    destruct (getFilterResultCardinality f) as [c|]; [|done].
    rewrite Hf. by rewrite app_nil_r.
  - inversion Hpre as [|? ? Hg Hpre']; subst.
    unfold fullyCached in Hg.
    destruct (getFilterResultCardinality g) as [c|].
    + rewrite Hg, IH by done. by rewrite <- app_assoc.
    + rewrite IH by done. by rewrite <- app_assoc.
Qed.

(** Without a fully cached filter the loop puts every filter back. *)
Lemma shortcut_keeps (cache : Cache) (fs kept : list Filter) :
  Forall (fun g => fullyCached g = false) fs ->
  shortcut fs kept = ((kept ++ fs)%list, []).
Proof.
  revert kept. induction fs as [|g fs IH]; intros kept Hfs; simpl.
  - by rewrite app_nil_r.
  - inversion Hfs as [|? ? Hg Hfs']; subst.
    unfold fullyCached in Hg.
    destruct (getFilterResultCardinality g) as [c|].
    + rewrite Hg, IH by done. by rewrite <- app_assoc.
    + rewrite IH by done. by rewrite <- app_assoc.
Qed.

Lemma emitAll_recorder (url : string) (es : list TrustedEvent)
    (s : list (string * TrustedEvent)) :
  emitAll recorder (map (EventEmission url) es) s = (s ++ map (fun e => (url, e)) es)%list.
Proof.
  unfold emitAll. revert s. induction es as [|e es IH]; intros s.
  - simpl. by rewrite app_nil_r.
  - cbn [map fold_left]. rewrite IH. simpl. by rewrite <- app_assoc.
Qed.

(** C1, as the code has it.  Without [closeOnEose] the shortcut does not
    run: every filter goes to the network and nothing is emitted from the
    cache; the same when no filter is fully cached.  With [closeOnEose], the
    first fully cached filter [f] is not among the filters sent to the
    network, the filters before it are, and the results of [f] are emitted
    on the subscription's emitter with [LOCAL_RELAY_URL], in a task after the
    one that called [subscribe]: a listener registered in the calling task
    receives each of them, in order. *)
Theorem subscribe_local_shortcut (cache : Cache) (ctx : Ctx.t) (req : Partial.t) :
  let sub := subscribe ctx req in
  (truthy (Partial.closeOnEose req) = false ->
     Net.filters (request sub) = Partial.filters req /\ timer sub = [])
  /\ (truthy (Partial.closeOnEose req) = true ->
      Forall (fun g => fullyCached g = false) (Partial.filters req) ->
      Net.filters (request sub) = Partial.filters req /\ timer sub = [])
  /\ (truthy (Partial.closeOnEose req) = true ->
      forall pre f post,
        Partial.filters req = (pre ++ f :: post)%list ->
        Forall (fun g => fullyCached g = false) pre ->
        fullyCached f = true ->
        (f ∉ Net.filters (request sub))
        /\ (forall g, g ∈ pre -> g ∈ Net.filters (request sub))
        /\ timer sub = map (EventEmission Relays.LOCAL_RELAY_URL) (repositoryQuery [f])
        /\ heap (callerTask sub recorder []) = []
        /\ runQueued (callerTask sub recorder [])
           = map (fun e => (Relays.LOCAL_RELAY_URL, e)) (repositoryQuery [f])).
Proof.
  simpl. unfold subscribe. split; [|split].
  - intros ->. done.
  - intros -> Hnone. by rewrite (shortcut_keeps cache _ [] Hnone).
  - intros -> pre f post Hfs Hpre Hf.
    rewrite Hfs, (shortcut_stops cache pre post [] f Hpre Hf). simpl.
    split; [|split; [|split; [|split]]]; try done.
    + intros Hin. rewrite Forall_forall in Hpre.
      specialize (Hpre f Hin). congruence.
    + unfold runQueued. simpl. apply (emitAll_recorder _ _ []).
Qed.

(** C1 on a request: the repository holds the note "a", the request asks
    for it by id with [closeOnEose]. *)
Lemma subscribe_local_shortcut_witness :
  let sub := @subscribe Examples.cache Examples.ctx
               (Examples.requestWith [Examples.notesFilter; idsFilter ["a"]] (Some true)) in
  (idsFilter ["a"] ∉ Net.filters (request sub))
  /\ runQueued (callerTask sub recorder [])
     = [(Relays.LOCAL_RELAY_URL, Examples.note "a" "alice" 10)].
Proof.
  pose proof (subscribe_local_shortcut Examples.cache Examples.ctx
                (Examples.requestWith [Examples.notesFilter; idsFilter ["a"]] (Some true)))
    as (_ & _ & Hon).
  specialize (Hon eq_refl [Examples.notesFilter] (idsFilter ["a"]) [] eq_refl).
  destruct Hon as (Hnot & _ & _ & _ & Hrun).
  - repeat constructor.
  - vm_compute. reflexivity.
  - split; [exact Hnot | exact Hrun].
Defined.

(** C1 as stated fails without [closeOnEose]: the filter [{ids: ["a"]}] is
    fully cached, yet it is sent to the network and nothing is emitted from
    the cache. *)
Lemma subscribe_open_keeps_cached_filter :
  let sub := @subscribe Examples.cache Examples.ctx
               (Examples.requestWith [idsFilter ["a"]] None) in
  @fullyCached Examples.cache (idsFilter ["a"]) = true
  /\ (idsFilter ["a"] ∈ Net.filters (request sub))
  /\ timer sub = [].
Proof.
  simpl. split; [vm_compute; reflexivity|].
  split; [|reflexivity].
  simpl. by left.
Qed.

(** C2, at the input on which it fails: with [closeOnEose], [{ids: ["a"]}]
    fully cached and followed by [{kinds: [1]}], which is not, the network is
    handed no filter at all, where the claim keeps [{kinds: [1]}]. *)
Theorem subscribe_drops_later_filters :
  let sub := @subscribe Examples.cache Examples.ctx
               (Examples.requestWith [idsFilter ["a"]; Examples.notesFilter] (Some true)) in
  @fullyCached Examples.cache (idsFilter ["a"]) = true
  /\ @fullyCached Examples.cache Examples.notesFilter = false
  /\ Net.filters (request sub) = []
  /\ Net.filters (request sub) <> [Examples.notesFilter].
Proof.
  cbv zeta. split; [vm_compute; reflexivity|].
  split; [vm_compute; reflexivity|].
  split; [vm_compute; reflexivity|].
  vm_compute. discriminate.
Qed.

(** X10. What the loop does in general: the filters from the first fully
    cached one onwards are all left out. *)
Lemma subscribe_filters_prefix (cache : Cache) (ctx : Ctx.t) (req : Partial.t)
    (pre post : list Filter) (f : Filter) :
  truthy (Partial.closeOnEose req) = true ->
  Partial.filters req = (pre ++ f :: post)%list ->
  Forall (fun g => fullyCached g = false) pre ->
  fullyCached f = true ->
  Net.filters (request (subscribe ctx req)) = pre.
Proof.
  intros Hc Hfs Hpre Hf. unfold subscribe.
  rewrite Hc, Hfs, (shortcut_stops cache pre post [] f Hpre Hf). reflexivity.
Qed.

(** *** [load] *)

Lemma loadRun_no_complete (trace : list Emission) (s : Loading) :
  Forall (fun x => isComplete x = false) trace ->
  emitAll loadListeners trace s
  = {| events := (events s ++ eventsOf trace)%list; resolved := resolved s |}.
Proof.
  revert s. induction trace as [|x trace IH]; intros s Hno; simpl.
  - rewrite app_nil_r. by destruct s.
  - inversion Hno as [|? ? Hx Hno']; subst.
    destruct x as [url e|]; [|done].
    change (emitAll loadListeners (EventEmission url e :: trace) s)
      with (emitAll loadListeners trace (emit loadListeners (EventEmission url e) s)).
    rewrite IH by done. simpl.
    by rewrite <- app_assoc.
Qed.

Lemma loadRun_resolved (trace : list Emission) (s : Loading) :
  resolved s = true -> resolved (emitAll loadListeners trace s) = true.
Proof.
  revert s. induction trace as [|x trace IH]; intros s Hs; simpl; [done|].
  apply IH. by destruct x.
Qed.

Lemma emitAll_app {S : Type} (ls : Listeners S) (xs ys : list Emission) (s : S) :
  emitAll ls (xs ++ ys) s = emitAll ls ys (emitAll ls xs s).
Proof. unfold emitAll. apply fold_left_app. Qed.

(** C3, as the code has it.  [load] subscribes with
    [closeOnEose] true unless the request sets the field itself; its promise
    is not resolved as long as the subscription has not emitted [Complete],
    is resolved when it does, with the events emitted until then, in order,
    and stays resolved; the locally cached events, emitted by the timer of
    [subscribe] in a task of its own, are among them when they come before
    [Complete]. *)
Theorem load_resolves_on_complete (cache : Cache) (ctx : Ctx.t) (req : Partial.t) :
  let sub := load ctx req in
  Net.closeOnEose (request sub) = Some (default true (Partial.closeOnEose req))
  /\ (Partial.closeOnEose req = None -> Net.closeOnEose (request sub) = Some true)
  /\ (forall pre post,
        Forall (fun x => isComplete x = false) pre ->
        resolved (loadAfter pre) = false
        /\ loadAfter (pre ++ [CompleteEmission])
           = {| events := eventsOf pre; resolved := true |}
        /\ resolved (loadAfter (pre ++ CompleteEmission :: post)) = true)
  /\ runQueued (callerTask sub loadListeners {| events := []; resolved := false |})
     = loadAfter (timer sub)
  /\ (forall before after,
        Forall (fun x => isComplete x = false) before ->
        Forall (fun x => isComplete x = false) after ->
        loadAfter (before ++ timer sub ++ after ++ [CompleteEmission])
        = {| events := (eventsOf before ++ eventsOf (timer sub) ++ eventsOf after)%list;
             resolved := true |}).
Proof.
  cbv zeta.
  assert (Hpre : forall pre, Forall (fun x => isComplete x = false) pre ->
            loadAfter pre = {| events := eventsOf pre; resolved := false |}).
  { intros pre Hno. unfold loadAfter. by rewrite loadRun_no_complete. }
  assert (Hdone : forall pre, Forall (fun x => isComplete x = false) pre ->
            loadAfter (pre ++ [CompleteEmission])
            = {| events := eventsOf pre; resolved := true |}).
  { intros pre Hno. unfold loadAfter. rewrite emitAll_app.
    fold (loadAfter pre). by rewrite Hpre. }
  split; [reflexivity|].
  split; [intros Hc; unfold load, subscribe, loadRequest; simpl; by rewrite Hc|].
  split; [|split].
  - intros pre post Hno. split; [by rewrite Hpre|]. split; [by apply Hdone|].
    change (pre ++ CompleteEmission :: post)%list
      with (pre ++ [CompleteEmission] ++ post)%list.
    rewrite app_assoc. unfold loadAfter. rewrite emitAll_app.
    apply loadRun_resolved. fold (loadAfter (pre ++ [CompleteEmission])).
    by rewrite Hdone.
  - reflexivity.
  - intros before after Hb Ha.
    assert (Forall (fun x => isComplete x = false) (timer (load ctx req))) as Ht.
    { unfold load, subscribe. simpl.
      apply Forall_forall. intros x Hx. apply list_elem_of_fmap in Hx as (e & -> & _). done. }
    assert (Forall (fun x => isComplete x = false)
              (before ++ timer (load ctx req) ++ after)) as Hall.
    { by repeat apply Forall_app_2. }
    replace (before ++ timer (load ctx req) ++ after ++ [CompleteEmission])%list
      with ((before ++ timer (load ctx req) ++ after) ++ [CompleteEmission])%list
      by (by rewrite <- !app_assoc).
    rewrite Hdone by exact Hall.
    unfold eventsOf. by rewrite !flat_map_app.
Qed.

(** C3 as stated fails on a request that sets [closeOnEose: false]: the
    spread [...request] comes after [closeOnEose: true] and overrides it. *)
Lemma load_closeOnEose_overridden :
  Net.closeOnEose (request (@load Examples.cache Examples.ctx
     (Examples.requestWith [Examples.notesFilter] (Some false)))) = Some false.
Proof. reflexivity. Qed.

End AppFacts.

(** ** The Repository *)

Section RepositoryFacts.
Import Repository.
Context `{Protocol}.

(** *** Stored records *)

Lemma elem_of_dump (r : Repository.t) (e : TrustedEvent) :
  e ∈ dump r <-> exists i, eventsById r !! i = Some e.
Proof.
  unfold dump. rewrite list_elem_of_fmap. split.
  - intros ([i x] & -> & Hin). exists i. by apply elem_of_map_to_list in Hin.
  - intros (i & Hi). exists (i, e). split; [done|]. by apply elem_of_map_to_list.
Qed.

Lemma lookup_withoutKey (k : option IdentityKey) (m : gmap string TrustedEvent)
    (i : string) (x : TrustedEvent) :
  withoutKey k m !! i = Some x
  <-> m !! i = Some x /\ (forall k', k = Some k' -> identityKey x <> Some k').
Proof.
  destruct k as [k|]; simpl.
  - rewrite map_lookup_filter_Some. simpl. split.
    + intros [Hm Hk]. split; [done|]. intros k' [= <-]. done.
    + intros [Hm Hk]. split; [done|]. by apply Hk.
  - split; [intros Hm; split; [done|]; congruence | tauto].
Qed.

Lemma lookup_store (r : Repository.t) (e : TrustedEvent) (i : string) (x : TrustedEvent) :
  eventsById (store r e) !! i = Some x
  <-> (i = id e /\ x = e)
      \/ (i <> id e /\ eventsById r !! i = Some x
          /\ forall k, identityKey e = Some k -> identityKey x <> Some k).
Proof.
  unfold store. simpl. rewrite lookup_insert_Some, lookup_withoutKey.
  naive_solver.
Qed.

Lemma wellFiled_empty : wellFiled empty.
Proof. intros i e. simpl. by rewrite lookup_empty. Qed.

Lemma wellFiled_publish (r : Repository.t) (e : TrustedEvent) :
  wellFiled r -> wellFiled (publish r e).
Proof.
  intros Hwf. unfold publish. destruct (accepts r e); [|done].
  intros i x Hx. apply lookup_store in Hx as [[-> ->]|(_ & Hx & _)]; [done|].
  by apply Hwf.
Qed.

Lemma wellFiled_load (events : list TrustedEvent) (r : Repository.t) :
  wellFiled r -> wellFiled (load r events).
Proof.
  revert r. induction events as [|e events IH]; intros r Hwf; simpl; [done|].
  apply IH. by apply wellFiled_publish.
Qed.

(** *** Tombstones only grow *)

Lemma deletedEventIds_publish (r : Repository.t) (e : TrustedEvent) :
  deletedEventIds r ⊆ deletedEventIds (publish r e).
Proof.
  unfold publish. destruct (accepts r e); [|done].
  unfold store. simpl. destruct (isDeletionKind (kind e)); set_solver.
Qed.

Lemma deletedEventIds_load (events : list TrustedEvent) (r : Repository.t) :
  deletedEventIds r ⊆ deletedEventIds (load r events).
Proof.
  revert r. induction events as [|e events IH]; intros r; simpl; [done|].
  etrans; [apply (deletedEventIds_publish r e) | apply IH].
Qed.

Lemma isDeleted_load (events : list TrustedEvent) (r : Repository.t) (x : TrustedEvent) :
  isDeleted r x = true -> isDeleted (load r events) x = true.
Proof.
  unfold isDeleted. rewrite !bool_decide_eq_true.
  intros Hx. by apply (deletedEventIds_load events r).
Qed.

(** *** What a query may return *)

Lemma elem_of_dedupById (es : list TrustedEvent) (e : TrustedEvent) :
  e ∈ dedupById es -> e ∈ es.
Proof.
  revert e. induction es as [|x es IH]; intros e; simpl; [done|].
  rewrite !elem_of_cons, list_elem_of_filter. naive_solver.
Qed.

Lemma dedupById_keeps (es : list TrustedEvent) (e : TrustedEvent) :
  e ∈ es -> (forall y, y ∈ es -> id y = id e -> y = e) -> e ∈ dedupById es.
Proof.
  induction es as [|x es IH]; intros Hin Huniq; simpl; [done|].
  apply elem_of_cons in Hin as [->|Hin]; [by left|].
  destruct (decide (id e = id x)) as [Heq|Hne].
  - apply elem_of_cons. left. symmetry. apply Huniq; [by left | done].
  - right. apply list_elem_of_filter. split; [done|].
    apply IH; [done|]. intros y Hy. apply Huniq. by right.
Qed.

Lemma elem_of_queryFilter (inc : bool) (r : Repository.t) (f : Filter) (e : TrustedEvent) :
  e ∈ queryFilter inc r f ->
  e ∈ dump r /\ matchFilter f e = true /\ (inc = true \/ tombstoned r e = false).
Proof.
  unfold queryFilter, takeLimit. intros Hin.
  assert (e ∈ merge_sort newestFirst
            (filter (fun e => matchFilter f e && (inc || negb (tombstoned r e))) (dump r)))
    as Hsorted.
  { destruct (limit f) as [n|]; [|done]. eapply subseteq_take, Hin. }
  rewrite merge_sort_Permutation in Hsorted.
  apply list_elem_of_filter in Hsorted as [Hp Hd].
  apply Is_true_true in Hp. apply andb_true_iff in Hp as [Hm Ht].
  repeat split; try done.
  destruct inc; [by left | right]. simpl in Ht. by apply negb_true_iff.
Qed.

Lemma elem_of_queryWith (inc : bool) (r : Repository.t) (fs : list Filter) (e : TrustedEvent) :
  e ∈ queryWith inc r fs ->
  e ∈ dump r /\ matchFilters fs e = true /\ (inc = true \/ tombstoned r e = false).
Proof.
  unfold queryWith. intros Hin. apply elem_of_dedupById in Hin.
  apply list_elem_of_In, in_flat_map in Hin as (f & Hf & Hin).
  apply list_elem_of_In, elem_of_queryFilter in Hin as (Hd & Hm & Ht).
  repeat split; try done.
  unfold matchFilters. apply existsb_exists. by exists f.
Qed.

Lemma queryFilter_unlimited (inc : bool) (r : Repository.t) (f : Filter) (e : TrustedEvent) :
  limit f = None -> e ∈ dump r -> matchFilter f e = true ->
  (inc = true \/ tombstoned r e = false) ->
  e ∈ queryFilter inc r f.
Proof.
  intros Hl Hd Hm Ht. unfold queryFilter, takeLimit. rewrite Hl.
  rewrite merge_sort_Permutation. apply list_elem_of_filter. split; [|done].
  apply Is_true_true. rewrite Hm. simpl.
  destruct Ht as [->| ->]; [done | by rewrite orb_true_r].
Qed.

Lemma wellFiled_unique (r : Repository.t) (x y : TrustedEvent) :
  wellFiled r -> x ∈ dump r -> y ∈ dump r -> id y = id x -> y = x.
Proof.
  intros Hwf Hx Hy Hid.
  apply elem_of_dump in Hx as (i & Hi). apply elem_of_dump in Hy as (j & Hj).
  pose proof (Hwf i x Hi). pose proof (Hwf j y Hj). congruence.
Qed.

Lemma query_unlimited (inc : bool) (r : Repository.t) (f : Filter) (e : TrustedEvent) :
  wellFiled r -> limit f = None -> e ∈ dump r -> matchFilter f e = true ->
  (inc = true \/ tombstoned r e = false) ->
  e ∈ queryWith inc r [f].
Proof.
  intros Hwf Hl Hd Hm Ht. unfold queryWith. simpl. rewrite app_nil_r.
  apply dedupById_keeps.
  - by apply queryFilter_unlimited.
  - intros y Hy Hid. apply elem_of_queryFilter in Hy as (Hy & _).
    by apply (wellFiled_unique r).
Qed.

(** *** Deletions *)

Lemma deletion_has_no_key (d : TrustedEvent) :
  isDeletionKind (kind d) = true -> identityKey d = None.
Proof.
  intros Hd. apply deletion_is_regular in Hd as [Hr Ha].
  unfold identityKey. by rewrite Hr, Ha.
Qed.

(** C6. Once a deletion event naming the id of a stored event [x] is
    accepted, [isDeleted x] holds and no default-mode query returns [x], now
    and after any further publishes, while [dump] still has [x] (and a query
    that asks for deleted events still finds it). *)
Theorem deletion_keeps_record (history : list TrustedEvent) (x d : TrustedEvent) :
  let r := load empty history in
  let r' := publish r d in
  x ∈ dump r ->
  isDeletionKind (kind d) = true ->
  id x ∈ deletedIds d ->
  accepts r d = true ->
  isDeleted r' x = true
  /\ x ∈ dump r'
  /\ (forall fs, x ∉ query r' fs)
  /\ (forall later,
        isDeleted (load r' later) x = true
        /\ forall fs, x ∉ query (load r' later) fs)
  /\ (forall f, matchFilter f x = true -> limit f = None -> x ∈ queryWith true r' [f]).
Proof.
  intros r r' Hx Hd Hid Hacc.
  assert (wellFiled r) as Hwf by apply wellFiled_load, wellFiled_empty.
  assert (r' = store r d) as Hr' by (unfold r', publish; by rewrite Hacc).
  assert (isDeleted r' x = true) as Hdel.
  { rewrite Hr'. unfold isDeleted, store. simpl. rewrite Hd.
    apply bool_decide_eq_true. apply elem_of_union_r, elem_of_list_to_set, Hid. }
  assert (forall r'', isDeleted r'' x = true -> forall fs, x ∉ query r'' fs) as Hexcl.
  { intros r'' Hdel'' fs Hin. apply elem_of_queryWith in Hin as (_ & _ & [Hinc|Ht]); [done|].
    unfold tombstoned in Ht. by rewrite Hdel'' in Ht. }
  assert (x ∈ dump r') as Hx'.
  { rewrite Hr'. apply elem_of_dump in Hx as (i & Hi). apply elem_of_dump. exists i.
    apply lookup_store. right. split; [|split; [done|]].
    - intros ->. unfold accepts in Hacc.
      apply andb_true_iff in Hacc as [Hacc _]. apply andb_true_iff in Hacc as [Hacc _].
      apply negb_true_iff, bool_decide_eq_false in Hacc.
      apply Hacc, elem_of_dom. by exists x.
    - intros k Hk. by rewrite deletion_has_no_key in Hk. }
  split; [done|]. split; [done|]. split; [by apply Hexcl|]. split.
  - intros later. split; [by apply isDeleted_load|]. by apply Hexcl, isDeleted_load.
  - intros f Hm Hl. apply query_unlimited; try done; [|by left].
    unfold r'. by apply wellFiled_publish.
Qed.

(** *** Replaceable and addressable events *)

Lemma string_ltb_asym (a b : string) : String.ltb a b = true -> String.ltb b a = false.
Proof.
  unfold String.ltb. rewrite (String.compare_antisym a b).
  by destruct (String.compare b a).
Qed.

Lemma olderThan_asym (a b : TrustedEvent) : olderThan a b = true -> olderThan b a = false.
Proof.
  unfold olderThan. intros Hab.
  apply orb_true_iff in Hab as [Hlt|Htie].
  - apply Z.ltb_lt in Hlt.
    apply orb_false_iff. split.
    + apply Z.ltb_ge. lia.
    + apply andb_false_iff. left. apply Z.eqb_neq. lia.
  - apply andb_true_iff in Htie as [Heq Hid]. apply Z.eqb_eq in Heq.
    apply orb_false_iff. split.
    + apply Z.ltb_ge. lia.
    + apply andb_false_iff. right. by apply string_ltb_asym.
Qed.

Lemma olderThan_created_at (a b : TrustedEvent) :
  (created_at a < created_at b)%Z -> olderThan a b = true.
Proof.
  intros Hlt. unfold olderThan. apply orb_true_iff. left. by apply Z.ltb_lt.
Qed.

Lemma key_not_deletion (e : TrustedEvent) (k : IdentityKey) :
  identityKey e = Some k -> isDeletionKind (kind e) = false.
Proof.
  intros Hk. destruct (isDeletionKind (kind e)) eqn:Hd; [|done].
  by rewrite deletion_has_no_key in Hk.
Qed.

Lemma tombstoned_store (r : Repository.t) (e x : TrustedEvent) (k : IdentityKey) :
  identityKey e = Some k -> tombstoned (store r e) x = tombstoned r x.
Proof.
  intros Hk. unfold tombstoned, isDeleted, isDeletedByAddress, store. simpl.
  by rewrite (key_not_deletion e k Hk).
Qed.

Lemma existsb_false_iff {A : Type} (f : A -> bool) (l : list A) :
  existsb f l = false <-> forall x, x ∈ l -> f x = false.
Proof.
  rewrite <- not_true_iff_false, existsb_exists. split.
  - intros Hno x Hx. apply not_true_iff_false. intros Hfx.
    apply Hno. exists x. by rewrite <- list_elem_of_In.
  - intros Hall (x & Hx & Hfx). rewrite <- list_elem_of_In in Hx.
    rewrite (Hall x Hx) in Hfx. done.
Qed.

Lemma accepts_fresh (r : Repository.t) (e : TrustedEvent) :
  accepts r e = true -> eventsById r !! id e = None.
Proof.
  unfold accepts. intros Hacc.
  apply andb_true_iff in Hacc as [Hacc _]. apply andb_true_iff in Hacc as [Hacc _].
  apply negb_true_iff, bool_decide_eq_false in Hacc. by apply not_elem_of_dom.
Qed.

Lemma accepts_not_tombstoned (r : Repository.t) (e : TrustedEvent) :
  accepts r e = true -> tombstoned r e = false.
Proof.
  unfold accepts. intros Hacc.
  apply andb_true_iff in Hacc as [Hacc _]. apply andb_true_iff in Hacc as [_ Hacc].
  by apply negb_true_iff.
Qed.

Lemma stored_in_dump (r : Repository.t) (e : TrustedEvent) : e ∈ dump (store r e).
Proof. apply elem_of_dump. exists (id e). apply lookup_store. by left. Qed.

(** After [e] is stored it is the only record of its identity. *)
Lemma store_only_one (r : Repository.t) (e x : TrustedEvent) (k : IdentityKey) :
  identityKey e = Some k -> x ∈ dump (store r e) -> identityKey x = Some k -> x = e.
Proof.
  intros Hk Hx Hxk. apply elem_of_dump in Hx as (i & Hi).
  apply lookup_store in Hi as [[_ ->]|(_ & _ & Hne)]; [done|].
  by destruct (Hne k Hk).
Qed.

(** A candidate older than the stored event of its identity is rejected. *)
Lemma older_candidate_rejected (r : Repository.t) (e1 e2 : TrustedEvent) (k : IdentityKey) :
  identityKey e1 = Some k -> identityKey e2 = Some k -> olderThan e1 e2 = true ->
  accepts (store r e2) e1 = false.
Proof.
  intros Hk1 Hk2 Hold. unfold accepts.
  assert (stale (store r e2) e1 = true) as ->; [|by rewrite andb_false_r].
  unfold stale. rewrite Hk1. apply existsb_exists. exists e2. split.
  - apply list_elem_of_In, stored_in_dump.
  - unfold sameKey. rewrite bool_decide_eq_true_2 by done.
    by rewrite (olderThan_asym e1 e2 Hold).
Qed.

(** A newer candidate is accepted after the older one was stored. *)
Lemma newer_candidate_accepted (r : Repository.t) (e1 e2 : TrustedEvent) (k : IdentityKey) :
  identityKey e1 = Some k -> identityKey e2 = Some k -> olderThan e1 e2 = true ->
  id e1 <> id e2 -> accepts r e2 = true ->
  accepts (store r e1) e2 = true.
Proof.
  intros Hk1 Hk2 Hold Hid Hacc. unfold accepts.
  rewrite (tombstoned_store r e1 e2 k Hk1), (accepts_not_tombstoned r e2 Hacc).
  assert (stale (store r e1) e2 = false) as ->.
  { unfold stale. rewrite Hk2. apply existsb_false_iff. intros x Hx.
    unfold sameKey. destruct (decide (identityKey x = Some k)) as [Hxk|Hxk].
    - rewrite (store_only_one r e1 x k Hk1 Hx Hxk), Hold. apply andb_false_r.
    - by rewrite bool_decide_eq_false_2. }
  rewrite bool_decide_eq_false_2; [done|].
  intros Hin. apply elem_of_dom in Hin as [x Hx].
  apply lookup_store in Hx as [[Hx _]|(_ & Hx & _)]; [congruence|].
  by rewrite (accepts_fresh r e2 Hacc) in Hx.
Qed.

(** Storing the newer event over the older one leaves what storing the newer
    one alone leaves. *)
Lemma store_store_newer (r : Repository.t) (e1 e2 : TrustedEvent) (k : IdentityKey) :
  identityKey e1 = Some k -> identityKey e2 = Some k ->
  eventsById r !! id e1 = None ->
  store (store r e1) e2 = store r e2.
Proof.
  intros Hk1 Hk2 Hfresh.
  assert (eventsById (store (store r e1) e2) = eventsById (store r e2)) as Hmap.
  { apply map_eq. intros i. apply option_eq. intros x.
    rewrite (lookup_store (store r e1) e2), (lookup_store r e2), (lookup_store r e1).
    split.
    - intros [?|(Hi & [[-> ->]|(Hi1 & Hx & _)] & Hne)]; [by left| |by right].
      by destruct (Hne k Hk2).
    - intros [?|(Hi & Hx & Hne)]; [by left|]. right. split; [done|]. split; [|done].
      right. split; [congruence|]. split; [done|].
      intros k' Hk'. apply Hne. congruence. }
  unfold store in *. simpl in *.
  rewrite (key_not_deletion e1 k Hk1), (key_not_deletion e2 k Hk2) in *.
  by rewrite Hmap.
Qed.

Lemma dedupById_constant (es : list TrustedEvent) (e : TrustedEvent) :
  es <> [] -> (forall x, x ∈ es -> x = e) -> dedupById es = [e].
Proof.
  intros Hne Hall. destruct es as [|x es]; [done|]. simpl.
  rewrite (Hall x) by by left. f_equal.
  apply elem_of_nil_inv. intros y Hy. apply list_elem_of_filter in Hy as [Hid Hy].
  apply elem_of_dedupById in Hy. apply Hid. f_equal. apply Hall. by right.
Qed.

(** C5. Two events of one replaceable or addressable identity, [e2] the
    newer (greater [created_at], or equal and the greater id), published in
    either order to a repository that accepts [e2]: the two states are the
    same; the older candidate is rejected once the newer is stored; [e2] is
    stored and [e1] is not; [e2] is the only record of the identity, the only
    event of the identity a query returns, and is returned by an unlimited
    filter that matches it; a query selecting that identity returns exactly
    [e2]. *)
Theorem newest_of_identity_wins (history : list TrustedEvent)
    (e1 e2 : TrustedEvent) (k : IdentityKey) :
  let r := load empty history in
  let r12 := publish (publish r e1) e2 in
  let r21 := publish (publish r e2) e1 in
  identityKey e1 = Some k ->
  identityKey e2 = Some k ->
  olderThan e1 e2 = true ->
  id e1 <> id e2 ->
  accepts r e2 = true ->
  r12 = r21
  /\ accepts (publish r e2) e1 = false
  /\ e2 ∈ dump r12
  /\ (e1 ∉ dump r12)
  /\ (forall e, e ∈ dump r12 -> identityKey e = Some k -> e = e2)
  /\ (forall fs e, e ∈ query r12 fs -> identityKey e = Some k -> e = e2)
  /\ (forall f, matchFilter f e2 = true -> limit f = None -> e2 ∈ query r12 [f])
  /\ (forall fs,
        (forall e, matchFilters fs e = true -> identityKey e = Some k) ->
        (exists f, f ∈ fs /\ matchFilter f e2 = true /\ limit f = None) ->
        query r12 fs = [e2]).
Proof.
  intros r r12 r21 Hk1 Hk2 Hold Hid Hacc.
  assert (wellFiled r) as Hwf by apply wellFiled_load, wellFiled_empty.
  assert (publish r e2 = store r e2) as Hp2 by (unfold publish; by rewrite Hacc).
  assert (accepts (store r e2) e1 = false) as Hrej
    by by apply (older_candidate_rejected r e1 e2 k).
  assert (r21 = store r e2) as H21.
  { unfold r21. rewrite Hp2. unfold publish. by rewrite Hrej. }
  assert (r12 = store r e2) as H12.
  { unfold r12. unfold publish at 2. destruct (accepts r e1) eqn:Hacc1; [|done].
    unfold publish. rewrite (newer_candidate_accepted r e1 e2 k) by done.
    apply (store_store_newer r e1 e2 k); try done. by apply accepts_fresh. }
  assert (wellFiled (store r e2)) as Hwf2.
  { rewrite <- Hp2. by apply wellFiled_publish. }
  assert (tombstoned (store r e2) e2 = false) as Hlive.
  { rewrite (tombstoned_store r e2 e2 k Hk2). by apply accepts_not_tombstoned. }
  rewrite H12.
  split; [by rewrite H21|]. split; [by rewrite Hp2|].
  split; [apply stored_in_dump|].
  split; [intros Hin; apply Hid; f_equal; by apply (store_only_one r e2 e1 k)|].
  split; [intros e; by apply store_only_one|].
  split; [|split].
  - intros fs e Hin Hek. apply elem_of_queryWith in Hin as (Hin & _).
    by apply (store_only_one r e2 e k).
  - intros f Hm Hl. apply query_unlimited; try done; [apply stored_in_dump | by right].
  - intros fs Honly (f & Hf & Hm & Hl). unfold query, queryWith.
    apply dedupById_constant.
    + intros Hnil.
      assert (e2 ∈ flat_map (queryFilter false (store r e2)) fs) as Hin.
      { apply list_elem_of_In, in_flat_map. exists f. split; [by apply list_elem_of_In|].
        apply list_elem_of_In, queryFilter_unlimited; try done;
          [apply stored_in_dump | by right]. }
      rewrite Hnil in Hin. by apply elem_of_nil in Hin.
    + intros x Hx. apply list_elem_of_In, in_flat_map in Hx as (g & Hg & Hx).
      apply list_elem_of_In, elem_of_queryFilter in Hx as (Hd & Hmx & _).
      apply (store_only_one r e2 x k); try done.
      apply Honly. unfold matchFilters. apply existsb_exists. by exists g.
Qed.

End RepositoryFacts.

Section RepositoryExamples.
Import Repository.
#[local] Existing Instance Examples.protocol.

(** C6 on a repository holding the note "a", with the deletion event "d"
    naming it. *)
Lemma deletion_keeps_record_witness :
  let r' := publish (load empty [Examples.note "a" "alice" 10]) (Examples.deletionOf "d" "a") in
  isDeleted r' (Examples.note "a" "alice" 10) = true
  /\ Examples.note "a" "alice" 10 ∈ dump r'
  /\ (Examples.note "a" "alice" 10 ∉ query r' [Examples.notesFilter]).
Proof.
  destruct (deletion_keeps_record [Examples.note "a" "alice" 10]
              (Examples.note "a" "alice" 10) (Examples.deletionOf "d" "a"))
    as (Hdel & Hdump & Hq & _).
  - vm_compute. by left.
  - reflexivity.
  - vm_compute. by left.
  - vm_compute. reflexivity.
  - split; [exact Hdel|]. split; [exact Hdump|]. apply Hq.
Defined.

(** C5 on two profiles of one author, published to an empty repository. *)
Lemma newest_of_identity_wins_witness :
  let e1 := Examples.profile "p1" "alice" 10 in
  let e2 := Examples.profile "p2" "alice" 20 in
  publish (publish empty e1) e2 = publish (publish empty e2) e1
  /\ query (publish (publish empty e1) e2) [Examples.profileFilter "alice"] = [e2].
Proof.
  destruct (newest_of_identity_wins [] (Examples.profile "p1" "alice" 10)
              (Examples.profile "p2" "alice" 20) ("alice", 0%Z, None))
    as (Hsame & _ & _ & _ & _ & _ & _ & Hquery);
    [reflexivity | reflexivity | reflexivity | discriminate | vm_compute; reflexivity |].
  split; [exact Hsame|].
  apply Hquery.
  - intros e He. unfold matchFilters in He. simpl in He. rewrite orb_false_r in He.
    unfold matchFilter in He. simpl in He.
    repeat (apply andb_true_iff in He as [He ?]).
    unfold includes in He. apply bool_decide_eq_true in He.
    apply list_elem_of_singleton in He.
    match goal with Hk : bool_decide (kind e ∈ _) = true |- _ =>
      apply bool_decide_eq_true, list_elem_of_singleton in Hk; rename Hk into Hkind end.
    unfold identityKey. simpl. rewrite Hkind, He. reflexivity.
  - exists (Examples.profileFilter "alice"). split; [by left|]. split; reflexivity.
Defined.

(** A tie on [created_at] goes to the greater id, whichever comes first. *)
Example newest_of_identity_tie :
  let e1 := Examples.profile "p1" "alice" 10 in
  let e2 := Examples.profile "p2" "alice" 10 in
  dump (publish (publish empty e1) e2) = [e2]
  /\ dump (publish (publish empty e2) e1) = [e2].
Proof. vm_compute. split; reflexivity. Qed.

End RepositoryExamples.

(** ** The Router *)

Section RouterFacts.
Import Router.

#[local] Instance ranksBefore_total (sc : Scenario) : Total (ranksBefore sc).
Proof. intros a b. unfold ranksBefore. lia. Qed.

#[local] Instance ranksBefore_trans (sc : Scenario) : Transitive (ranksBefore sc).
Proof. intros a b c. unfold ranksBefore. lia. Qed.

Lemma StronglySorted_take {A : Type} (R : A -> A -> Prop) (n : nat) (l : list A) :
  StronglySorted R l -> StronglySorted R (take n l).
Proof.
  intros Hl. rewrite <- (take_drop n l) in Hl.
  by apply StronglySorted_app_1_l in Hl.
Qed.

Lemma elem_of_mergedUrls (sels : list Selection) (u : string) :
  u ∈ mergedUrls sels <-> exists s, s ∈ sels /\ u ∈ relays s.
Proof.
  unfold mergedUrls. rewrite elem_of_uniq, list_elem_of_In, in_flat_map.
  split; intros (s & Hs & Hu); exists s.
  - by rewrite !list_elem_of_In.
  - by rewrite <- !list_elem_of_In.
Qed.

(** The whole contribution of a url that no selection names is nothing. *)
Lemma combinedWeight_single (w : Z) (us : list string) (u : string) :
  combinedWeight [ {| weight := w; relays := us |} ] u
  = (w * Z.of_nat (length (filter (fun v => v = u) us)))%Z.
Proof. unfold combinedWeight. simpl. lia. Qed.

(** Weights add up over the contributions. *)
Lemma combinedWeight_app (sels1 sels2 : list Selection) (u : string) :
  combinedWeight (sels1 ++ sels2) u
  = (combinedWeight sels1 u + combinedWeight sels2 u)%Z.
Proof.
  unfold combinedWeight. induction sels1 as [|s sels1 IH]; simpl; [lia|].
  rewrite IH. lia.
Qed.

(** A url named once by a contribution counts once. *)
Lemma count_NoDup (us : list string) (u : string) :
  NoDup us ->
  length (filter (fun v => v = u) us) = if decide (u ∈ us) then 1%nat else 0%nat.
Proof.
  induction 1 as [|v us Hv Hnd IH]; simpl.
  - by destruct (decide (u ∈ [])) as [Hin%elem_of_nil|].
  - destruct (decide (v = u)) as [->|Hne].
    + rewrite filter_cons_True by done. simpl. rewrite IH.
      destruct (decide (u ∈ us)); [done|].
      destruct (decide (u ∈ u :: us)) as [|Hout]; [done|].
      destruct Hout. by left.
    + rewrite filter_cons_False by done. rewrite IH.
      destruct (decide (u ∈ us)) as [Hin|Hout];
        destruct (decide (u ∈ v :: us)) as [Hin'|Hout']; try done.
      * destruct Hout'. by right.
      * apply elem_of_cons in Hin' as [->|Hin']; done.
Qed.

(** The combined weight of a url is the sum of the weights of the
    contributions that name it. *)
Lemma combinedWeight_sum (sels : list Selection) (u : string) :
  Forall (fun s => NoDup (relays s)) sels ->
  combinedWeight sels u
  = fold_right Z.add 0%Z (map weight (filter (fun s => u ∈ relays s) sels)).
Proof.
  unfold combinedWeight. induction 1 as [|s sels Hs _ IH]; simpl; [done|].
  rewrite IH, (count_NoDup _ _ Hs).
  destruct (decide (u ∈ relays s)).
  - rewrite filter_cons_True by done. simpl. lia.
  - rewrite filter_cons_False by done. lia.
Qed.

(** C7. The final list of a scenario: the contributed urls, each once
    (duplicates merged, each with the sum of the weights of the contributions
    that name it, when none names it twice), in descending order of combined
    weight and, at equal weight, of quality, cut to [getLimit()]: the urls
    kept are the first of the sorted urls, so each of them ranks before
    every url that is cut.  They are followed by the
    first fallback relays, as many as the policy asks for and the limit
    leaves room for.  With fallbacks [[F]], limit 3, one contribution of two
    distinct relays and a policy that asks for more at (2, 3), the list has
    exactly 3 urls: the two relays and then [F], three different urls when
    [F] is not one of the two. *)
Theorem getUrls_reduction (sc : Scenario) :
  let limit := getLimit (options sc) in
  let primary := primaryUrls sc in
  getUrls sc = (primary ++ fallbackUrls sc)%list
  /\ (Forall (fun s => NoDup (relays s)) (selections sc) ->
      forall u, combinedWeight (selections sc) u
                = fold_right Z.add 0%Z
                    (map weight (filter (fun s => u ∈ relays s) (selections sc))))
  /\ NoDup primary
  /\ (forall u, u ∈ primary -> exists s, s ∈ selections sc /\ u ∈ relays s)
  /\ StronglySorted (ranksBefore sc) primary
  /\ (exists cut,
        (primary ++ cut)%list ≡ₚ mergedUrls (selections sc)
        /\ StronglySorted (ranksBefore sc) (primary ++ cut)%list)
  /\ (forall u v,
        u ∈ primary -> v ∈ mergedUrls (selections sc) -> v ∉ primary ->
        ranksBefore sc u v)
  /\ length primary = Nat.min limit (length (mergedUrls (selections sc)))
  /\ (length (mergedUrls (selections sc)) <= limit ->
      forall u, u ∈ primary <-> exists s, s ∈ selections sc /\ u ∈ relays s)%nat
  /\ fallbackUrls sc `prefix_of` getFallbackRelays (options sc)
  /\ length (fallbackUrls sc)
     = Nat.min (Nat.min (policy sc (length primary) limit) (limit - length primary))
               (length (getFallbackRelays (options sc)))
  /\ (length (getUrls sc) <= limit)%nat
  /\ (forall threshold,
        policy sc = belowThreshold threshold ->
        ((length primary = 0 \/ length primary < threshold)%nat ->
         length (fallbackUrls sc)
         = Nat.min (limit - length primary) (length (getFallbackRelays (options sc))))
        /\ ((0 < length primary /\ threshold <= length primary)%nat ->
            fallbackUrls sc = []))
  /\ (forall r1 r2 F w,
        selections sc = [ {| weight := w; relays := [r1; r2] |} ] ->
        r1 <> r2 ->
        getFallbackRelays (options sc) = [F] ->
        limit = 3%nat ->
        (1 <= policy sc 2 3)%nat ->
        length (getUrls sc) = 3%nat
        /\ F ∈ getUrls sc /\ r1 ∈ getUrls sc /\ r2 ∈ getUrls sc
        /\ fallbackUrls sc = [F]
        /\ getUrls sc ≡ₚ [r1; r2; F]
        /\ last (getUrls sc) = Some F
        /\ (F <> r1 -> F <> r2 -> NoDup (getUrls sc))).
Proof.
  cbv zeta.
  assert (Hperm : merge_sort (ranksBefore sc) (mergedUrls (selections sc))
                  ≡ₚ mergedUrls (selections sc)) by apply merge_sort_Permutation.
  assert (Hlen : length (primaryUrls sc)
                 = Nat.min (getLimit (options sc)) (length (mergedUrls (selections sc)))).
  { unfold primaryUrls. rewrite length_take. by rewrite (Permutation_length Hperm). }
  assert (Hflen : length (fallbackUrls sc)
     = Nat.min (Nat.min (policy sc (length (primaryUrls sc)) (getLimit (options sc)))
                        (getLimit (options sc) - length (primaryUrls sc)))
               (length (getFallbackRelays (options sc)))).
  { unfold fallbackUrls. by rewrite length_take. }
  assert (Hsub : forall u, u ∈ primaryUrls sc -> u ∈ mergedUrls (selections sc)).
  { intros u Hu. unfold primaryUrls in Hu. apply subseteq_take in Hu.
    by rewrite Hperm in Hu. }
  split; [reflexivity|].
  split; [intros Hsels u; by apply combinedWeight_sum|].
  split.
  { unfold primaryUrls. eapply sublist_NoDup; [|apply sublist_take].
    rewrite Hperm. apply NoDup_uniq. }
  split; [intros u Hu; by apply elem_of_mergedUrls, Hsub|].
  split; [apply StronglySorted_take, StronglySorted_merge_sort; apply _|].
  assert (Hsorted : StronglySorted (ranksBefore sc)
            (primaryUrls sc
             ++ drop (getLimit (options sc))
                  (merge_sort (ranksBefore sc) (mergedUrls (selections sc))))%list).
  { unfold primaryUrls. rewrite take_drop.
    apply StronglySorted_merge_sort; apply _. }
  split.
  { eexists. split; [|exact Hsorted].
    unfold primaryUrls. by rewrite take_drop. }
  split.
  { intros u v Hu Hv Hcut.
    apply (StronglySorted_app_1_elem_of _ _ _ _ _ Hsorted Hu).
    rewrite <- Hperm in Hv.
    rewrite <- (take_drop (getLimit (options sc))) in Hv.
    apply elem_of_app in Hv as [Hv|Hv]; [|done]. by destruct Hcut. }
  split; [exact Hlen|].
  split.
  { intros Hfit u. rewrite <- elem_of_mergedUrls. unfold primaryUrls.
    rewrite take_ge by (rewrite (Permutation_length Hperm); lia).
    by rewrite Hperm. }
  split; [apply prefix_take|].
  split; [exact Hflen|].
  split; [unfold getUrls; rewrite length_app, Hflen; lia|].
  split.
  { intros threshold Hpol. split.
    - intros Hbelow. rewrite Hflen, Hpol. unfold belowThreshold.
      destruct (Nat.eqb_spec (length (primaryUrls sc)) 0);
        destruct (Nat.ltb_spec (length (primaryUrls sc)) threshold); simpl; lia.
    - intros [Hpos Hge]. unfold fallbackUrls. rewrite Hpol. unfold belowThreshold.
      destruct (Nat.eqb_spec (length (primaryUrls sc)) 0); [lia|].
      destruct (Nat.ltb_spec (length (primaryUrls sc)) threshold); [lia|].
      reflexivity. }
  intros r1 r2 F w Hsel Hne HF Hlim Hpol.
  assert (mergedUrls (selections sc) = [r1; r2]) as Hmerged.
  { rewrite Hsel. unfold mergedUrls. simpl.
    rewrite filter_cons_True by congruence. reflexivity. }
  assert (length (primaryUrls sc) = 2%nat) as Hp2.
  { rewrite Hlen, Hlim, Hmerged. reflexivity. }
  assert (fallbackUrls sc = [F]) as Hfb.
  { unfold fallbackUrls. rewrite Hp2, HF, Hlim.
    replace (Nat.min (policy sc 2 3) (3 - 2))%nat with 1%nat by lia. reflexivity. }
  assert (forall u, u ∈ [r1; r2] -> u ∈ getUrls sc) as Hin.
  { intros u Hu. unfold getUrls. apply elem_of_app. left. unfold primaryUrls.
    rewrite take_ge by (rewrite (Permutation_length Hperm), Hmerged, Hlim; simpl; lia).
    by rewrite Hperm, Hmerged. }
  split; [unfold getUrls; by rewrite length_app, Hp2, Hfb|].
  split; [unfold getUrls; rewrite Hfb; apply elem_of_app; right; by left|].
  split; [apply Hin; by left|].
  split; [apply Hin; right; by left|].
  split; [exact Hfb|].
  assert (getUrls sc ≡ₚ [r1; r2; F]) as Hall.
  { unfold getUrls. rewrite Hfb. unfold primaryUrls.
    rewrite take_ge by (rewrite (Permutation_length Hperm), Hmerged, Hlim; simpl; lia).
    by rewrite Hperm, Hmerged. }
  split; [exact Hall|].
  split; [unfold getUrls; rewrite Hfb; apply last_snoc|].
  intros HF1 HF2. rewrite Hall.
  repeat constructor; set_solver.
Qed.

(** C7 on the scenario of the spec. *)
Lemma getUrls_reduction_witness :
  length (getUrls Examples.scenario) = 3%nat
  /\ "wss://f.example/" ∈ getUrls Examples.scenario.
Proof.
  destruct (getUrls_reduction Examples.scenario)
    as (_ & _ & _ & _ & _ & _ & _ & _ & _ & _ & _ & _ & _ & Hsc).
  destruct (Hsc "wss://a.example/" "wss://b.example/" "wss://f.example/" 1%Z)
    as (Hlen & HF & _); [reflexivity | discriminate | reflexivity | reflexivity | |].
  - vm_compute. lia.
  - split; [exact Hlen | exact HF].
Defined.

Example getUrls_scenario :
  getUrls Examples.scenario = ["wss://a.example/"; "wss://b.example/"; "wss://f.example/"].
Proof. vm_compute. reflexivity. Qed.

(** Duplicates merge, the heavier url comes first, the limit cuts. *)
Example getUrls_merge_sort_cut :
  getUrls
    {| options := {| getFallbackRelays := []; getRelayQuality := fun _ => 0%Z; getLimit := 2 |};
       selections :=
         [ {| weight := 1; relays := ["wss://a.example/"; "wss://b.example/"] |};
           {| weight := 2; relays := ["wss://b.example/"; "wss://c.example/"] |} ];
       policy := addMaximalFallbacks |}
  = ["wss://b.example/"; "wss://c.example/"].
Proof. vm_compute. reflexivity. Qed.

End RouterFacts.

(* ===================================================================== *)
(** * Part III. The rest of the code                                      *)
(* ===================================================================== *)

(** ** Feeds as trees *)

Section FeedTree.
Import FeedCompiler.

(** Induction over a feed with the property at hand for its sub-feeds. *)
Lemma Feed_sub_ind (P : Feed -> Prop) :
  (forall feed, Forall P (getSubFeeds feed) -> P feed) -> forall feed, P feed.
Proof.
  intros Hstep. fix IH 1. intros feed. apply Hstep.
  destruct feed as [urls feeds|feeds|feeds|feeds|feeds|dfs|addresses|addresses|requests];
    simpl; try constructor;
    (revert feeds; fix IHfeeds 1; intros [|sub feeds]; constructor;
       [apply IH | apply IHfeeds]).
Qed.

Lemma nodes_getSubFeeds (feed : Feed) :
  nodes feed = feed :: flat_map nodes (getSubFeeds feed).
Proof. by destruct feed. Qed.

Lemma walk_getSubFeeds {S : Type} (visit : Feed -> S -> S) (feed : Feed) (s : S) :
  walk visit feed s
  = fold_left (fun s subFeed => walk visit subFeed s) (getSubFeeds feed) (visit feed s).
Proof. by destruct feed. Qed.

Lemma elem_of_nodes (g feed : Feed) : g ∈ nodes feed <-> Within g feed.
Proof.
  split.
  - revert feed. apply (Feed_sub_ind (fun feed => g ∈ nodes feed -> Within g feed)).
    intros feed IH. rewrite nodes_getSubFeeds, elem_of_cons.
    intros [->|Hin]; [constructor|].
    apply list_elem_of_In, in_flat_map in Hin as (sub & Hsub & Hin).
    apply list_elem_of_In in Hsub, Hin.
    apply (within_below g feed sub Hsub).
    rewrite Forall_forall in IH. by apply IH.
  - induction 1 as [|feed sub Hsub _ IH]; rewrite nodes_getSubFeeds.
    + by left.
    + right. apply list_elem_of_In, in_flat_map. exists sub.
      by rewrite <- !list_elem_of_In.
Qed.

(** X1. [walk] calls [visit] on the feed itself first and then on the feeds
    below it, depth first and in order: on exactly the feeds within the
    feed. *)
Theorem walk_visits_every_feed_within {S : Type} (visit : Feed -> S -> S)
    (feed : Feed) (s : S) :
  walk visit feed s = fold_left (fun s g => visit g s) (nodes feed) s
  /\ head (nodes feed) = Some feed
  /\ (forall g, g ∈ nodes feed <-> Within g feed).
Proof.
  split; [|split; [by destruct feed | intros g; apply elem_of_nodes]].
  revert s.
  apply (Feed_sub_ind (fun feed => forall s,
           walk visit feed s = fold_left (fun s g => visit g s) (nodes feed) s)).
  clear feed. intros feed IH s.
  rewrite walk_getSubFeeds, nodes_getSubFeeds. simpl.
  generalize (visit feed s). clear s.
  induction IH as [|sub subs Hsub _ IHsubs]; intros s; simpl; [done|].
  rewrite fold_left_app, <- Hsub. apply IHsubs.
Qed.

End FeedTree.

(** ** More of the feed compiler *)

Section CompilerFacts.
Import FeedCompiler.
Context (lib : UtilLib) (sched : Schedule).

(** *** [canCompile] *)

Lemma canCompile_unbound (feed : Feed) :
  canCompile None feed = if isComposite feed then Throw TypeError else Ok (isLeaf feed).
Proof. by destruct feed. Qed.

Lemma every_canCompile_unbound (feeds : list Feed) :
  every (canCompile None) feeds
  = match firstNonLeaf feeds with
    | None => Ok true
    | Some g => if isComposite g then Throw TypeError else Ok false
    end.
Proof.
  induction feeds as [|g feeds IH]; simpl; [done|].
  rewrite canCompile_unbound. unfold firstNonLeaf in *. simpl.
  destruct g; simpl; try done; apply IH.
Qed.

(** X2. What [canCompile] answers, in full.  A leaf is compilable, a
    difference, symmetric difference or list-of-lists feed is not; a relay,
    union or intersection feed is judged by its first sub-feed that is not a
    leaf: compilable when there is none, not compilable when that sub-feed is
    a difference, symmetric difference or list-of-lists feed, and a
    [TypeError] when it is itself a relay, union or intersection feed, since
    [every] runs [this.canCompile] without its receiver. *)
Theorem canCompile_first_non_leaf (self : FeedCompiler.t) (feed : Feed) :
  canCompile (Some self) feed
  = if isComposite feed
    then match firstNonLeaf (getSubFeeds feed) with
         | None => Ok true
         | Some g => if isComposite g then Throw TypeError else Ok false
         end
    else Ok (isLeaf feed).
Proof. destruct feed; simpl; try done; apply every_canCompile_unbound. Qed.

(** *** Intersections *)

(** X4. What an intersection feed compiles to.  [_compileIntersection] runs
    [compile] on its sub-feeds without the receiver, so it resolves exactly
    when every sub-feed is a filter feed without filters and
    [intersectFilters] accepts as many empty lists; the item then has no
    relay (never [BOGUS_RELAY_URL]) and the filters [intersectFilters]
    returned.  On such sub-feeds it rejects exactly when [intersectFilters]
    throws, and on any other sub-feed it rejects. *)
Theorem compile_intersection_resolves_iff (self : FeedCompiler.t) (feeds : list Feed) :
  (forall item,
     compile (Some self) (IntersectionFeed feeds) = Ok item
     <-> Forall (fun sub => sub = emptyFilterFeed) feeds
         /\ exists fs, intersectFilters (map (fun _ => []) feeds) = Ok fs
                       /\ item = {| relays := []; filters := fs |})
  /\ (Forall (fun sub => sub = emptyFilterFeed) feeds ->
      forall e, compile (Some self) (IntersectionFeed feeds) = Throw e
                <-> intersectFilters (map (fun _ => []) feeds) = Throw e)
  /\ (forall sub, sub ∈ feeds -> sub <> emptyFilterFeed ->
      isOk (compile (Some self) (IntersectionFeed feeds)) = false).
Proof.
  split; [intros item; apply compile_intersection_Ok|]. split.
  - intros Hfeeds e.
    destruct (compile (Some self) (IntersectionFeed feeds)) as [item|e'] eqn:Hc.
    + apply compile_intersection_Ok in Hc as (_ & fs & -> & _). done.
    + destruct (intersectFilters (map (fun _ => []) feeds)) as [fs|e''] eqn:Hfs.
      * assert (compile (Some self) (IntersectionFeed feeds)
                = Ok {| relays := []; filters := fs |}) as Hok.
        { apply compile_intersection_Ok. split; [done|]. by exists fs. }
        congruence.
      * revert Hc. rewrite compile_intersection. unfold _compileIntersection.
        assert (promiseAll (map (compile None) feeds)
                = Ok (map (fun _ => emptyItem) feeds)) as ->.
        { by apply compile_unbound_all. }
        simpl. unfold intersectionOfItems. rewrite map_map. simpl.
        rewrite Hfs. simpl. intros [= ->]. split; congruence.
  - intros sub Hin Hne.
    destruct (compile (Some self) (IntersectionFeed feeds)) as [item|e] eqn:Hc; [|done].
    apply compile_intersection_Ok in Hc as (Hfeeds & _).
    rewrite Forall_forall in Hfeeds. by apply Hfeeds in Hin.
Qed.

(** *** Unions and relay feeds *)

Lemma compileUnion_Ok (self : FeedCompiler.t) (feeds : list Feed) (item : RequestItem) :
  _compileUnion self feeds = Ok item ->
  exists settled,
    inArrivalOrder (map (compile (Some self)) feeds) = Ok settled
    /\ item = unionOfItems settled.
Proof.
  unfold _compileUnion.
  destruct (inArrivalOrder _) as [settled|e]; simpl; [|done].
  intros [= <-]. by exists settled.
Qed.

(** X5. A union feed compiles exactly when each of its sub-feeds does.  Its
    relays are then the relays of the sub-feeds' items, each once, and its
    filters the union of their filters, the items taken in the order they
    resolved in, which need not be the order of the feeds.  When it rejects,
    it is with the error of one of its sub-feeds. *)
Theorem compile_union_of_items (self : FeedCompiler.t) (feeds : list Feed) :
  (isOk (compile (Some self) (UnionFeed feeds)) = true
   <-> Forall (fun sub => isOk (compile (Some self) sub) = true) feeds)
  /\ (forall item,
        compile (Some self) (UnionFeed feeds) = Ok item ->
        exists items settled,
          Forall2 (fun sub sub_item => compile (Some self) sub = Ok sub_item) feeds items
          /\ settled ≡ₚ items
          /\ NoDup (relays item)
          /\ (forall r, r ∈ relays item
                        <-> exists sub_item, sub_item ∈ items /\ r ∈ relays sub_item)
          /\ filters item = unionFilters (flat_map filters settled))
  /\ (forall e,
        compile (Some self) (UnionFeed feeds) = Throw e ->
        exists sub, sub ∈ feeds /\ compile (Some self) sub = Throw e).
Proof.
  rewrite compile_union. split; [|split].
  - unfold _compileUnion. rewrite <- Forall_isOk_map, <- inArrivalOrder_isOk.
    by destruct (inArrivalOrder _).
  - intros item (settled & Harr & ->)%compileUnion_Ok.
    destruct (inArrivalOrder_Ok _ _ Harr) as [Hseq Hperm].
    exists (resolved (map (compile (Some self)) feeds)), settled.
    split; [by apply mapM_Ok; rewrite <- sequence_map|].
    split; [done|]. simpl.
    split; [apply NoDup_uniq|]. split; [|done].
    intros r. rewrite elem_of_uniq, elem_of_flat_map_relays.
    by setoid_rewrite Hperm.
  - intros e. unfold _compileUnion.
    destruct (inArrivalOrder _) as [settled|e'] eqn:Harr; simpl; [done|].
    intros [= ->]. apply inArrivalOrder_Throw in Harr.
    apply list_elem_of_fmap in Harr as (sub & Hsub & Hin). by exists sub.
Qed.

(** X6. A relay feed compiles exactly as the union of its sub-feeds does, and
    to the union's item with the feed's own urls put after the union's
    relays as they are: the urls are not deduplicated, neither among
    themselves nor against the relays of the sub-feeds. *)
Theorem compile_relay_appends_urls (self : FeedCompiler.t) (urls : list string)
    (feeds : list Feed) :
  (forall item,
     compile (Some self) (RelayFeed urls feeds) = Ok item
     <-> exists union,
           compile (Some self) (UnionFeed feeds) = Ok union
           /\ item = {| relays := relays union ++ urls; filters := filters union |})
  /\ (forall e,
        compile (Some self) (RelayFeed urls feeds) = Throw e
        <-> compile (Some self) (UnionFeed feeds) = Throw e)
  /\ (forall item,
        compile (Some self) (RelayFeed urls feeds) = Ok item ->
        urls `suffix_of` relays item
        /\ NoDup (take (length (relays item) - length urls) (relays item))
        /\ (NoDup (relays item) ->
            NoDup urls /\ forall r, r ∈ urls -> forall sub sub_item,
              sub ∈ feeds -> compile (Some self) sub = Ok sub_item -> r ∉ relays sub_item)).
Proof.
  rewrite compile_relay, compile_union.
  destruct (_compileUnion self feeds) as [union|e'] eqn:Hunion; simpl.
  - split; [|split].
    + intros item. split.
      * intros [= <-]. by eexists.
      * intros (union' & [= <-] & ->). done.
    + intros e. done.
    + intros item [= <-]. simpl. split; [by eexists|].
      apply compileUnion_Ok in Hunion as (settled & Harr & ->). simpl.
      rewrite length_app, Nat.add_sub, take_app_length.
      split; [apply NoDup_uniq|].
      intros [_ [Hdisj Hnd]]%NoDup_app. split; [done|].
      intros r Hr sub sub_item Hsub Hcompile Hin.
      apply (Hdisj r); [|done].
      apply elem_of_uniq, elem_of_flat_map_relays. exists sub_item. split; [|done].
      apply (inArrivalOrder_elem_of _ _ _ Harr).
      apply list_elem_of_fmap. by exists sub.
  - split; [|split].
    + intros item. split; [done|]. by intros (union & ? & _).
    + intros e. done.
    + intros item. done.
Qed.

(** *** Leaves *)

(** X7. A list feed and a DVM feed reject exactly when a request of theirs
    does, with its error; when they resolve, a list feed has no relay, and
    the filters of either are those read off the tags found, never none. *)
Theorem compile_requests_outcome (self : FeedCompiler.t) :
  (forall addresses e,
     compile (Some self) (ListFeed addresses) = Throw e
     <-> request (options self) {| relays := []; filters := getIdFilters addresses |}
         = Throw e)
  /\ (forall addresses item,
        compile (Some self) (ListFeed addresses) = Ok item
        <-> exists events,
              request (options self) {| relays := []; filters := getIdFilters addresses |}
              = Ok events
              /\ item = {| relays := [];
                           filters := _getFiltersFromTags (tagsFromEvents events) |})
  /\ (forall requests e,
        compile (Some self) (DVMFeed requests) = Throw e ->
        exists item, item ∈ requests /\ requestDvm (options self) item = Throw e)
  /\ (forall requests,
        isOk (compile (Some self) (DVMFeed requests)) = true
        <-> Forall (fun item => isOk (requestDvm (options self) item) = true) requests)
  /\ (forall requests item,
        compile (Some self) (DVMFeed requests) = Ok item -> filters item <> []).
Proof.
  simpl. unfold _compileLists, _compileDvms.
  split; [|split; [|split; [|split]]].
  - intros addresses e. destruct (request _ _); simpl; split; congruence.
  - intros addresses item. destruct (request _ _) as [events|e']; simpl.
    + split; [intros [= <-]; by eexists | by intros (? & [= <-] & ->)].
    + split; [done | by intros (? & ? & _)].
  - intros requests e.
    destruct (promiseAll _) as [responses|e'] eqn:Hmap; simpl; [done|].
    intros [= ->]. apply promiseAll_Throw in Hmap.
    apply list_elem_of_fmap in Hmap as (item & Hitem & Hin). by exists item.
  - intros requests. rewrite <- Forall_isOk_map, <- promiseAll_isOk.
    by destruct (promiseAll _).
  - intros requests item.
    destruct (promiseAll _) as [responses|e'] eqn:Hmap; simpl; [|done].
    intros [= <-]. simpl. unfold _getFiltersFromTags.
    by destruct (tagFilterList _).
Qed.

(** *** [_compileFilter] *)

Lemma filter_includes_sublist (wot xs : list string) :
  filter (fun pubkey => includes wot pubkey) xs `sublist_of` xs.
Proof. apply sublist_filter. Qed.

(** X8. What [_compileFilter] changes and what it keeps.  The [ids], [kinds],
    tag constraints, [limit] and [search] of the filter pass through.
    Authors given in the filter are never replaced or widened: scopes are
    ignored for them, and a web-of-trust range only removes some.  [until]
    and [since] are the filter's own unless [until_ago] or [since_ago] is
    given, which then sets them from the clock. *)
Theorem compileFilter_keeps (self : FeedCompiler.t) (df : DynamicFilter) :
  let out := _compileFilter self df in
  ids out = ids (rest df)
  /\ kinds out = kinds (rest df)
  /\ tagFilters out = tagFilters (rest df)
  /\ limit out = limit (rest df)
  /\ search out = search (rest df)
  /\ (forall xs, authors (rest df) = Some xs ->
        exists ys, authors out = Some ys /\ ys `sublist_of` xs
                   /\ (min_wot df = None -> max_wot df = None -> ys = xs))
  /\ (authors (rest df) = None -> scopes df = None ->
      min_wot df = None -> max_wot df = None -> authors out = None)
  /\ until out = match until_ago df with
                 | Some ago => Some (now - ago)%Z
                 | None => until (rest df)
                 end
  /\ since out = match since_ago df with
                 | Some ago => Some (now - ago)%Z
                 | None => since (rest df)
                 end.
Proof.
  unfold _compileFilter.
  destruct df as [[i a k t s u l q] sc mn mx ua sa]; simpl.
  destruct sc as [sc|], a as [a|], mn as [mn|], mx as [mx|], ua as [ua|], sa as [sa|];
    simpl; repeat split; try done;
    try (intros xs [= <-]; eexists; split; [reflexivity|];
         split; [first [apply sublist_filter | reflexivity] | try done]).
Qed.

(** X9. The web-of-trust bounds are read with [||]: a missing [min_wot] is 0,
    and a [max_wot] of 0 is read as 1, like a missing one, so the range can
    not be capped at 0. *)
Theorem compileFilter_wot_defaults (self : FeedCompiler.t) (flt : Filter)
    (sc : option (list Scope)) (min_wot : option Z) (ua sa : option Z) :
  _compileFilter self
    {| rest := flt; scopes := sc; min_wot := min_wot; max_wot := Some 0%Z;
       until_ago := ua; since_ago := sa |}
  = _compileFilter self
      {| rest := flt; scopes := sc; min_wot := min_wot; max_wot := Some 1%Z;
         until_ago := ua; since_ago := sa |}
  /\ (forall max_wot : Z,
        _compileFilter self
          {| rest := flt; scopes := sc; min_wot := None; max_wot := Some max_wot;
             until_ago := ua; since_ago := sa |}
        = _compileFilter self
            {| rest := flt; scopes := sc; min_wot := Some 0%Z; max_wot := Some max_wot;
               until_ago := ua; since_ago := sa |})
  /\ (forall min : Z,
        _compileFilter self
          {| rest := flt; scopes := sc; min_wot := Some min; max_wot := None;
             until_ago := ua; since_ago := sa |}
        = _compileFilter self
            {| rest := flt; scopes := sc; min_wot := Some min; max_wot := Some 1%Z;
               until_ago := ua; since_ago := sa |}).
Proof.
  unfold _compileFilter. simpl. repeat split; intros; by destruct min_wot.
Qed.

End CompilerFacts.

Section CompilerExamples.
Import FeedCompiler.
#[local] Existing Instance Examples.utilLib.
#[local] Existing Instance Examples.inOrder.

(** A union of a filter feed, compiled by a compiler whose requests
    resolve. *)
Lemma canCompile_true_not_unable_witness :
  canCompile (Some (Examples.compilerFinding []))
             (UnionFeed [FilterFeed [Examples.notesDynamicFilter]]) = Ok true
  /\ compile (Some (Examples.compilerFinding []))
             (UnionFeed [FilterFeed [Examples.notesDynamicFilter]])
     <> Throw (UnableToConvert "filter").
Proof.
  split; [reflexivity|].
  apply (canCompile_true_not_unable Examples.utilLib (Examples.compilerFinding [])
           (UnionFeed [FilterFeed [Examples.notesDynamicFilter]]) "filter").
  - intros item ty. discriminate.
  - intros item ty. discriminate.
  - reflexivity.
Defined.

(** A walk that counts the feeds. *)
Example walk_counts :
  walk (fun _ n => S n)
       (UnionFeed [RelayFeed ["wss://a.example/"] [FilterFeed []; ListFeed []];
                   DifferenceFeed [DVMFeed []]]) 0%nat
  = 6%nat.
Proof. reflexivity. Qed.

End CompilerExamples.

(** ** More of [subscribe] and [load] *)

Section AppMore.
Import App.

Lemma shortcut_outcome (cache : Cache) (pending kept : list Filter) :
  (Forall (fun g => fullyCached g = false) pending
   /\ shortcut pending kept = ((kept ++ pending)%list, []))
  \/ exists pre f post,
       pending = (pre ++ f :: post)%list
       /\ Forall (fun g => fullyCached g = false) pre
       /\ fullyCached f = true
       /\ shortcut pending kept = ((kept ++ pre)%list, repositoryQuery [f]).
Proof.
  assert (Hdec : Forall (fun g => fullyCached g = false) pending
                 \/ exists pre f post,
                      pending = (pre ++ f :: post)%list
                      /\ Forall (fun g => fullyCached g = false) pre
                      /\ fullyCached f = true).
  { induction pending as [|g pending IH]; [by left|].
    destruct (fullyCached g) eqn:Hg.
    - right. exists [], g, pending. by repeat split.
    - destruct IH as [Hall|(pre & f & post & -> & Hpre & Hf)].
      + left. by constructor.
      + right. exists (g :: pre), f, post. repeat split; [|done]. by constructor. }
  destruct Hdec as [Hall|(pre & f & post & -> & Hpre & Hf)].
  - left. split; [done|]. by apply shortcut_keeps.
  - right. exists pre, f, post. repeat split; try done. by apply shortcut_stops.
Qed.

(** X11. What [subscribe] never does.  The filters it hands to the network
    are a prefix of the request's: none is added, reordered or changed.
    Whatever the timer emits is an event with [LOCAL_RELAY_URL], never a
    [Complete], and is a repository result of a fully cached filter of the
    request that is not sent to the network.  With [closeOnEose] no fully
    cached filter is sent to the network.  The other fields of the request
    go to the network as they are, a missing [relays] as the empty list. *)
Theorem subscribe_never_adds (cache : Cache) (ctx : Ctx.t) (req : Partial.t) :
  let sub := subscribe ctx req in
  Net.filters (request sub) `prefix_of` Partial.filters req
  /\ (forall x, x ∈ timer sub ->
        exists e f,
          x = EventEmission Relays.LOCAL_RELAY_URL e
          /\ e ∈ repositoryQuery [f]
          /\ f ∈ Partial.filters req
          /\ fullyCached f = true
          /\ f ∉ Net.filters (request sub))
  /\ (truthy (Partial.closeOnEose req) = true ->
      Forall (fun g => fullyCached g = false) (Net.filters (request sub)))
  /\ Net.closeOnEose (request sub) = Partial.closeOnEose req
  /\ Net.relays (request sub) = default [] (Partial.relays req).
Proof.
  cbv zeta. unfold subscribe. simpl.
  destruct (truthy (Partial.closeOnEose req)) eqn:Hc; simpl.
  - destruct (shortcut_outcome cache (Partial.filters req) [])
      as [[Hall ->]|(pre & f & post & Hfs & Hpre & Hf & ->)]; simpl.
    + split; [done|]. split; [intros x Hx; by apply elem_of_nil in Hx|]. by repeat split.
    + split; [rewrite Hfs; by eexists|]. split; [|by repeat split].
      intros x Hx. apply list_elem_of_fmap in Hx as (e & -> & He).
      exists e, f. repeat split; try done.
      * rewrite Hfs. apply elem_of_app. right. by left.
      * intros Hin. rewrite Forall_forall in Hpre. specialize (Hpre f Hin). congruence.
  - split; [done|]. split; [intros x Hx; by apply elem_of_nil in Hx|]. by repeat split.
Qed.

Lemma load_run (trace : list Emission) (s : Loading) :
  emitAll loadListeners trace s
  = {| events := (events s ++ eventsOf trace)%list;
       resolved := resolved s || completes trace |}.
Proof.
  revert s. induction trace as [|x trace IH]; intros s.
  - simpl. rewrite app_nil_r, orb_false_r. by destruct s.
  - change (emitAll loadListeners (x :: trace) s)
      with (emitAll loadListeners trace (emit loadListeners x s)).
    rewrite IH. destruct x as [url e|]; simpl.
    + by rewrite <- app_assoc.
    + by rewrite orb_true_r.
Qed.

(** X12. What the listeners of [load] do with everything the subscription
    emits.  The promise is resolved exactly when a [Complete] was emitted,
    and the array holds every event emitted, those after the [Complete] too:
    the listeners stay registered, and the array the promise was resolved
    with keeps filling. *)
Theorem load_array_keeps_filling (trace : list Emission) :
  loadAfter trace = {| events := eventsOf trace; resolved := completes trace |}
  /\ (forall pre post,
        events (loadAfter (pre ++ CompleteEmission :: post))
        = (eventsOf pre ++ eventsOf post)%list).
Proof.
  split.
  - unfold loadAfter. by rewrite load_run.
  - intros pre post. unfold loadAfter. rewrite load_run. simpl.
    unfold eventsOf. by rewrite flat_map_app.
Qed.

(** A request of three filters, the second of which is cached: only the
    first goes to the network. *)
Lemma subscribe_filters_prefix_witness :
  @fullyCached Examples.cache (idsFilter ["a"]) = true
  /\ Net.filters
       (request (@subscribe Examples.cache Examples.ctx
                   (Examples.requestWith
                      [Examples.notesFilter; idsFilter ["a"]; Examples.profileFilter "alice"]
                      (Some true))))
     = [Examples.notesFilter].
Proof.
  split; [vm_compute; reflexivity|].
  apply (subscribe_filters_prefix Examples.cache Examples.ctx
           (Examples.requestWith
              [Examples.notesFilter; idsFilter ["a"]; Examples.profileFilter "alice"]
              (Some true))
           [Examples.notesFilter] [Examples.profileFilter "alice"] (idsFilter ["a"])).
  - reflexivity.
  - reflexivity.
  - repeat constructor.
  - vm_compute. reflexivity.
Defined.

End AppMore.

(** ** More of the relay urls *)

Section RelayUrlMore.
Import Relays.

Lemma ws_prefix_not_wss (url : string) :
  String.prefix "ws://" url = true -> String.prefix "wss://" url = false.
Proof.
  destruct url as [|c1 url]; cbn [String.prefix]; [done|].
  destruct (ascii_dec "w" c1) as [<-|]; [|done].
  destruct url as [|c2 url]; cbn [String.prefix]; [done|].
  destruct (ascii_dec "s" c2) as [<-|]; [|done].
  destruct url as [|c3 url]; cbn [String.prefix]; [done|].
  destruct (ascii_dec ":" c3) as [<-|]; [|done].
  intros _. by destruct (ascii_dec "s" ":").
Qed.

(** X13. [allowInsecure] changes the protocol only, and only for a url that
    begins with "ws://": that url keeps "ws://", every other gets "wss://" as
    by default; what follows the protocol is the same either way, and so is
    what is thrown for a url [normalizeUrl] throws on. *)
Theorem normalizeRelayUrl_allowInsecure (lib : UrlLib) (url : string) :
  (forall e, normalizeRelayUrl url true = Throw e
             <-> normalizeRelayUrl url false = Throw e)
  /\ (forall normal,
        normalizeUrl url = Ok normal ->
        exists remainder : string,
          normalizeRelayUrl url false = Ok ("wss://" ++ remainder)
          /\ normalizeRelayUrl url true
             = Ok ((if String.prefix "ws://" url then "ws://" else "wss://")
                   ++ remainder))
  /\ (String.prefix "ws://" url = false ->
      normalizeRelayUrl url true = normalizeRelayUrl url false).
Proof.
  split; [intros e; by rewrite !normalizeRelayUrl_Throw|].
  assert (Hprefix : match wsPrefix url with Some p => p | None => "wss://" end
                    = if String.prefix "ws://" url then "ws://" else "wss://").
  { unfold wsPrefix. destruct (String.prefix "ws://" url) eqn:Hws.
    - by rewrite (ws_prefix_not_wss url Hws).
    - by destruct (String.prefix "wss://" url). }
  split.
  - intros normal Hnormal.
    rewrite (normalizeRelayUrl_Ok lib url normal false Hnormal),
            (normalizeRelayUrl_Ok lib url normal true Hnormal), Hprefix.
    by eexists.
  - intros Hws. unfold normalizeRelayUrl. rewrite Hprefix, Hws. done.
Qed.

End RelayUrlMore.

(** ** Regular expressions: the matcher is right *)

Section RegexFacts.
Import Regex.

Lemma Matches_seq_inv (r1 r2 : Regex.t) (w : list ascii) :
  Matches (Seq r1 r2) w ->
  exists w1 w2 : list ascii, w = (w1 ++ w2)%list /\ Matches r1 w1 /\ Matches r2 w2.
Proof.
  intros H. remember (Seq r1 r2) as r eqn:Hr.
  destruct H as [| |? ? w1 w2 H1 H2| | | |]; try done.
  injection Hr as -> ->. by exists w1, w2.
Qed.

Lemma Matches_alt_inv (r1 r2 : Regex.t) (w : list ascii) :
  Matches (Alt r1 r2) w -> Matches r1 w \/ Matches r2 w.
Proof.
  intros H. remember (Alt r1 r2) as r eqn:Hr.
  destruct H; try done; injection Hr as -> ->; [by left | by right].
Qed.

Lemma Matches_class_inv (p : ascii -> bool) (w : list ascii) :
  Matches (Class p) w -> exists c, w = [c] /\ p c = true.
Proof.
  intros H. remember (Class p) as r eqn:Hr.
  destruct H as [|? c Hc| | | | |]; try done. injection Hr as ->. by exists c.
Qed.

Lemma Matches_star_cons (r : Regex.t) (c : ascii) (w : list ascii) :
  Matches (Star r) (c :: w) ->
  exists w1 w2 : list ascii,
    w = (w1 ++ w2)%list /\ Matches r (c :: w1) /\ Matches (Star r) w2.
Proof.
  intros H. remember (Star r) as r' eqn:Hr. remember (c :: w) as w' eqn:Hw.
  revert w Hw. induction H as [| | | | | |r0 w1 w2 H1 _ H2 IH2]; try done.
  injection Hr as ->. intros w Hw.
  destruct w1 as [|c' w1]; simpl in Hw.
  - by apply IH2.
  - injection Hw as -> <-. by exists w1, w2.
Qed.

Lemma nullable_spec (r : Regex.t) : nullable r = true <-> Matches r [].
Proof.
  induction r as [| |p|r1 IH1 r2 IH2|r1 IH1 r2 IH2|r IH]; simpl.
  - split; [done | inversion 1].
  - split; [constructor | done].
  - split; [done | inversion 1].
  - rewrite andb_true_iff, IH1, IH2. split.
    + intros [H1 H2]. apply (matches_seq r1 r2 [] [] H1 H2).
    + intros H. apply Matches_seq_inv in H as (w1 & w2 & Hw & H1 & H2).
      symmetry in Hw. apply app_eq_nil in Hw as [-> ->]. done.
  - rewrite orb_true_iff, IH1, IH2. split.
    + intros [?|?]; [by apply matches_alt_l | by apply matches_alt_r].
    + apply Matches_alt_inv.
  - split; [constructor | done].
Qed.

Lemma deriv_spec (c : ascii) (r : Regex.t) (w : list ascii) :
  Matches (deriv c r) w <-> Matches r (c :: w).
Proof.
  revert w. induction r as [| |p|r1 IH1 r2 IH2|r1 IH1 r2 IH2|r IH]; intros w; simpl.
  - split; inversion 1.
  - split; inversion 1.
  - destruct (p c) eqn:Hp; split.
    + inversion 1; subst. by constructor.
    + intros H. apply Matches_class_inv in H as (c' & [= -> ->] & _). constructor.
    + inversion 1.
    + intros H. apply Matches_class_inv in H as (c' & [= -> ->] & ?). congruence.
  - assert (Hleft : forall w, Matches (Seq (deriv c r1) r2) w ->
                              Matches (Seq r1 r2) (c :: w)).
    { intros w' H. apply Matches_seq_inv in H as (w1 & w2 & -> & H1 & H2).
      apply IH1 in H1. apply (matches_seq r1 r2 (c :: w1) w2 H1 H2). }
    assert (Hback : forall w, Matches (Seq r1 r2) (c :: w) ->
              Matches (Seq (deriv c r1) r2) w
              \/ (Matches r1 [] /\ Matches (deriv c r2) w)).
    { intros w' H. apply Matches_seq_inv in H as (w1 & w2 & Heq & H1 & H2).
      destruct w1 as [|c' w1]; simpl in Heq.
      - right. subst w2. split; [done | by apply IH2].
      - injection Heq as <- ->. left. constructor; [by apply IH1 | done]. }
    destruct (nullable r1) eqn:Hn.
    + split.
      * intros H. apply Matches_alt_inv in H as [H|H]; [by apply Hleft|].
        apply nullable_spec in Hn. apply IH2 in H.
        apply (matches_seq r1 r2 [] (c :: w) Hn H).
      * intros H. apply Hback in H as [H|[_ H]];
          [by apply matches_alt_l | by apply matches_alt_r].
    + split; [apply Hleft|].
      intros H. apply Hback in H as [H|[H _]]; [done|].
      apply nullable_spec in H. congruence.
  - split; intros H; apply Matches_alt_inv in H as [H|H];
      [apply matches_alt_l; by apply IH1 | apply matches_alt_r; by apply IH2
      |apply matches_alt_l; by apply IH1 | apply matches_alt_r; by apply IH2].
  - split.
    + intros H. apply Matches_seq_inv in H as (w1 & w2 & -> & H1 & H2).
      apply IH in H1. apply (matches_star_more r (c :: w1) w2 H1 H2).
    + intros H. apply Matches_star_cons in H as (w1 & w2 & -> & H1 & H2).
      constructor; [by apply IH | done].
Qed.

Lemma matches_spec (r : Regex.t) (s : string) :
  matches r s = true <-> Matches r (list_ascii_of_string s).
Proof.
  revert r. induction s as [|c s IH]; intros r; simpl.
  - apply nullable_spec.
  - by rewrite IH, deriv_spec.
Qed.

Lemma Matches_any_star (w : list ascii) : Matches (Star Any) w.
Proof.
  induction w as [|c w IH]; [constructor|].
  apply (matches_star_more Any [c] w); [by constructor | done].
Qed.

Lemma testAtStart_spec (r : Regex.t) (s : string) :
  testAtStart r s = true
  <-> exists w post : list ascii,
        list_ascii_of_string s = (w ++ post)%list /\ Matches r w.
Proof.
  unfold testAtStart. rewrite matches_spec. split.
  - intros H. apply Matches_seq_inv in H as (w1 & w2 & Heq & H1 & _).
    by exists w1, w2.
  - intros (w & post & -> & H). constructor; [done | apply Matches_any_star].
Qed.

Lemma test_spec (r : Regex.t) (s : string) :
  test r s = true
  <-> exists pre w post : list ascii,
        list_ascii_of_string s = (pre ++ w ++ post)%list /\ Matches r w.
Proof.
  unfold test. rewrite matches_spec. split.
  - intros H. apply Matches_seq_inv in H as (pre & rest & Heq & _ & H2).
    apply Matches_seq_inv in H2 as (w & post & -> & Hw & _).
    by exists pre, w, post.
  - intros (pre & w & post & -> & H).
    constructor; [apply Matches_any_star|].
    constructor; [done | apply Matches_any_star].
Qed.

End RegexFacts.

(** ** Shareable relay urls *)

Section ShareableFacts.
Import Regex Relays.

Lemma list_ascii_of_string_app (s t : string) :
  list_ascii_of_string (s ++ t)
  = (list_ascii_of_string s ++ list_ascii_of_string t)%list.
Proof. induction s as [|c s IH]; simpl; [done | by rewrite IH]. Qed.

Lemma string_of_list_ascii_app (l k : list ascii) :
  string_of_list_ascii (l ++ k)%list
  = string_of_list_ascii l ++ string_of_list_ascii k.
Proof. induction l as [|c l IH]; simpl; [done | by rewrite IH]. Qed.

Lemma allChars_Forall (p : ascii -> bool) (s : string) :
  allChars p s = true <-> Forall (fun c => p c = true) (list_ascii_of_string s).
Proof.
  induction s as [|c s IH]; simpl.
  - split; [constructor | done].
  - rewrite andb_true_iff, IH, Forall_cons. done.
Qed.

Lemma allChars_app (p : ascii -> bool) (s t : string) :
  allChars p (s ++ t) = allChars p s && allChars p t.
Proof. induction s as [|c s IH]; simpl; [done | by rewrite IH, andb_assoc]. Qed.

Lemma allChars_impl (p q : ascii -> bool) (s : string) :
  (forall c, p c = true -> q c = true) -> allChars p s = true -> allChars q s = true.
Proof.
  intros Hpq. induction s as [|c s IH]; simpl; [done|].
  rewrite !andb_true_iff. intros [? ?]. split; [by apply Hpq | by apply IH].
Qed.

Lemma Matches_Lit (s : string) (w : list ascii) :
  Matches (Lit s) w <-> w = list_ascii_of_string s.
Proof.
  revert w. induction s as [|c s IH]; intros w; simpl.
  - split; [by inversion 1 | intros ->; constructor].
  - split.
    + intros H. apply Matches_seq_inv in H as (w1 & w2 & -> & H1 & H2).
      apply Matches_class_inv in H1 as (c' & -> & Hc).
      apply Ascii.eqb_eq in Hc as <-. apply IH in H2 as ->. done.
    + intros ->. apply (matches_seq (Chr c) (Lit s) [c]).
      * constructor. apply Ascii.eqb_refl.
      * by apply IH.
Qed.

Lemma Matches_star_class (p : ascii -> bool) (w : list ascii) :
  Matches (Star (Class p)) w <-> Forall (fun c => p c = true) w.
Proof.
  split.
  - intros H. remember (Star (Class p)) as r eqn:Hr.
    induction H as [| | | | | |r0 w1 w2 H1 _ H2 IH2]; try done.
    injection Hr as ->. apply Matches_class_inv in H1 as (c & -> & Hc).
    constructor; [done | by apply IH2].
  - induction 1 as [|c w Hc _ IH]; [constructor|].
    apply (matches_star_more (Class p) [c] w); [by constructor | done].
Qed.

Lemma Matches_plus_class (p : ascii -> bool) (w : list ascii) :
  Matches (Plus (Class p)) w <-> w <> [] /\ Forall (fun c => p c = true) w.
Proof.
  unfold Plus. split.
  - intros H. apply Matches_seq_inv in H as (w1 & w2 & -> & H1 & H2).
    apply Matches_class_inv in H1 as (c & -> & Hc).
    apply Matches_star_class in H2. split; [done | by constructor].
  - intros [Hne H]. destruct H as [|c w Hc H]; [done|].
    apply (matches_seq (Class p) (Star (Class p)) [c] w); [by constructor|].
    by apply Matches_star_class.
Qed.

(** A pattern whose every match begins with a character of a given class is
    found in no string that lacks such a character. *)
Lemma test_false_first (r : Regex.t) (p : ascii -> bool) (s : string) :
  (forall w, Matches r w -> exists c w', w = c :: w' /\ p c = true) ->
  allChars (fun c => negb (p c)) s = true ->
  test r s = false.
Proof.
  intros Hfirst Hall. destruct (test r s) eqn:Htest; [|done].
  apply test_spec in Htest as (pre & w & post & Heq & Hw).
  apply Hfirst in Hw as (c & w' & -> & Hc).
  apply allChars_Forall in Hall. rewrite Heq in Hall.
  rewrite Forall_app in Hall. destruct Hall as [_ Hall].
  simpl in Hall. apply Forall_cons in Hall as [Hall _].
  rewrite Hc in Hall. done.
Qed.

(** A pattern that matches each single character of a class is found in
    every string that holds one. *)
Lemma test_true_char (r : Regex.t) (p : ascii -> bool) (s : string) :
  (forall c, p c = true -> Matches r [c]) ->
  allChars (fun c => negb (p c)) s = false ->
  test r s = true.
Proof.
  intros Hchar Hsome. apply test_spec.
  induction s as [|c s IH]; simpl in *; [done|].
  destruct (p c) eqn:Hc; simpl in Hsome.
  - exists [], [c], (list_ascii_of_string s). split; [done | by apply Hchar].
  - destruct (IH Hsome) as (pre & w & post & -> & Hw).
    by exists (c :: pre), w, post.
Qed.

Lemma occurrencesFrom_none (lit : string) (c0 : ascii) (s : string) :
  allChars (fun c => negb (Ascii.eqb c c0)) s = true ->
  occurrencesFrom (String c0 lit) 0 s = 0%nat.
Proof.
  induction s as [|c s IH]; [done|].
  cbn [allChars occurrencesFrom String.prefix].
  rewrite andb_true_iff, negb_true_iff, Ascii.eqb_neq. intros [Hc Hs].
  destruct (ascii_dec c0 c) as [->|_]; [done | by apply IH].
Qed.

Lemma not_last_elem_of (c d : ascii) (pre rest host : list ascii) :
  (pre ++ c :: d :: rest)%list = (host ++ [c])%list -> c ∈ host.
Proof.
  revert host. induction pre as [|x pre IH]; intros [|h host] Heq; simpl in Heq.
  - done.
  - injection Heq as -> _. apply list_elem_of_here.
  - injection Heq as _ Heq. by destruct pre.
  - injection Heq as _ Heq. apply list_elem_of_further. by apply IH.
Qed.

Lemma isHostChar_plain (c : ascii) :
  isHostChar c = true ->
  isLineTerminator c = false /\ isBlankOrPercent c = false /\ isDigit c = false
  /\ Ascii.eqb c ":" = false /\ Ascii.eqb c "/" = false.
Proof.
  destruct c as [[] [] [] [] [] [] [] []]; vm_compute; intros; try done;
    repeat split.
Qed.

Lemma slice_6_wss (rest : string) : slice 6 ("wss://" ++ rest) = rest.
Proof. reflexivity. Qed.

Lemma occurrences_wss (rest : string) :
  occurrences "://" ("wss://" ++ rest) = S (occurrencesFrom "://" 0 rest).
Proof. by destruct rest. Qed.

Lemma append_nil_r (s : string) : s ++ "" = s.
Proof. induction s as [|c s IH]; [done|]. change (String c (s ++ "") = String c s). by rewrite IH. Qed.

Lemma string_nonempty (s : string) : list_ascii_of_string s <> [] <-> s <> "".
Proof. by destruct s. Qed.

Lemma shareable_decompose (url : string) :
  isShareableRelayUrl url = true ->
  exists host rest : string,
    url = "wss://" ++ host ++ "." ++ rest /\ host <> "" /\ rest <> "".
Proof.
  unfold isShareableRelayUrl. rewrite !andb_true_iff.
  intros [[[[[Hwss _] _] _] _] _].
  apply testAtStart_spec in Hwss as (w & post & Heq & Hw).
  apply Matches_seq_inv in Hw as (w1 & w2 & -> & Hw1 & Hw).
  apply Matches_Lit in Hw1 as ->.
  apply Matches_seq_inv in Hw as (host & w3 & -> & Hhost & Hw).
  apply Matches_seq_inv in Hw as (dot & rest & -> & Hdot & Hrest).
  apply Matches_class_inv in Hdot as (c & -> & Hc).
  apply Ascii.eqb_eq in Hc as <-.
  apply Matches_plus_class in Hhost as [Hhost _].
  apply Matches_plus_class in Hrest as [Hrest _].
  exists (string_of_list_ascii host), (string_of_list_ascii (rest ++ post)).
  split; [|split].
  - rewrite <- (string_of_list_ascii_of_string url), Heq.
    rewrite <- !app_assoc, !string_of_list_ascii_app.
    rewrite string_of_list_ascii_of_string. reflexivity.
  - by destruct host.
  - by destruct rest.
Qed.

(** X14. Only a secure websocket url with a dot inside what follows the
    protocol is shareable: a shareable url reads "wss://", a non-empty part,
    ".", a non-empty part.  It holds no white space and no "%".  In
    particular the two placeholder urls are not shareable. *)
Theorem isShareableRelayUrl_shape (url : string) :
  isShareableRelayUrl url = true ->
  (exists host rest : string,
      url = "wss://" ++ host ++ "." ++ rest /\ host <> "" /\ rest <> "")
  /\ allChars (fun c => negb (isBlankOrPercent c)) url = true
  /\ url <> LOCAL_RELAY_URL /\ url <> BOGUS_RELAY_URL.
Proof.
  intros H. split; [by apply shareable_decompose|]. split.
  - unfold isShareableRelayUrl in H. rewrite !andb_true_iff in H.
    destruct H as [[[[[_ _] Hblank] _] _] _].
    apply negb_true_iff in Hblank.
    destruct (allChars _ url) eqn:Hall; [done|].
    rewrite (test_true_char _ isBlankOrPercent url) in Hblank; [done| |done].
    intros c. unfold isBlankOrPercent. rewrite orb_true_iff. intros [Hc|Hc].
    + apply matches_alt_l. by constructor.
    + apply matches_alt_r. constructor. by rewrite Ascii.eqb_sym.
  - split; intros ->; vm_compute in H; done.
Qed.

Lemma isShareableRelayUrl_shape_witness :
  isShareableRelayUrl "wss://relay.example.com/" = true
  /\ (exists host rest : string,
        "wss://relay.example.com/" = "wss://" ++ host ++ "." ++ rest
        /\ host <> "" /\ rest <> "").
Proof.
  split; [reflexivity|].
  apply (isShareableRelayUrl_shape "wss://relay.example.com/"). reflexivity.
Defined.

(** X15. A host name (letters, hyphens and dots, with a dot inside) behind
    "wss://" is shareable, with or without the trailing slash. *)
Theorem isShareableRelayUrl_host_names (a b : string) :
  a <> "" -> b <> "" ->
  allChars isHostChar a = true -> allChars isHostChar b = true ->
  isShareableRelayUrl ("wss://" ++ a ++ "." ++ b) = true
  /\ isShareableRelayUrl ("wss://" ++ a ++ "." ++ b ++ "/") = true.
Proof.
  intros Ha Hb Hca Hcb.
  assert (Hplain : forall (p : ascii -> bool) (tail : string),
             (forall c, isHostChar c = true -> p c = false) ->
             allChars (fun c => negb (p c)) tail = true ->
             allChars (fun c => negb (p c)) (a ++ "." ++ b ++ tail) = true).
  { intros p tail Hp Htail.
    assert (Hto : forall s, allChars isHostChar s = true ->
                            allChars (fun c => negb (p c)) s = true).
    { intros s. apply allChars_impl. intros c Hc. by rewrite (Hp c Hc). }
    rewrite !allChars_app, (Hto a Hca), (Hto b Hcb), (Hto "." eq_refl), Htail.
    done. }
  assert (Hstart : forall tail : string,
             testAtStart (Seq (Lit "wss://") (Seq (Plus Dot) (Seq (Chr ".") (Plus Dot))))
               ("wss://" ++ a ++ "." ++ b ++ tail) = true).
  { intros tail. apply testAtStart_spec.
    exists (list_ascii_of_string "wss://" ++ list_ascii_of_string a
            ++ list_ascii_of_string "." ++ list_ascii_of_string b)%list,
           (list_ascii_of_string tail).
    split; [by rewrite !list_ascii_of_string_app, <- !app_assoc|].
    assert (Hdots : forall s, s <> "" -> allChars isHostChar s = true ->
                              Matches (Plus Dot) (list_ascii_of_string s)).
    { intros s Hs Hcs. apply Matches_plus_class.
      split; [by apply string_nonempty|].
      apply allChars_Forall. apply (allChars_impl isHostChar); [|done].
      intros c Hc. by rewrite (proj1 (isHostChar_plain c Hc)). }
    constructor; [by apply Matches_Lit|].
    constructor; [by apply Hdots|].
    constructor; [by constructor | by apply Hdots]. }
  assert (Hcount : forall tail : string,
             allChars (fun c => negb (Ascii.eqb c ":")) tail = true ->
             Nat.eqb (occurrences "://" ("wss://" ++ a ++ "." ++ b ++ tail)) 1 = true).
  { intros tail Htail. rewrite occurrences_wss.
    rewrite occurrencesFrom_none; [done|].
    apply (Hplain (fun c => Ascii.eqb c ":")); [|done].
    intros c Hc. apply (isHostChar_plain c Hc). }
  assert (Hblank : forall tail : string,
             allChars (fun c => negb (isBlankOrPercent c)) tail = true ->
             test (Alt Space (Chr "%")) ("wss://" ++ a ++ "." ++ b ++ tail) = false).
  { intros tail Htail. apply (test_false_first _ isBlankOrPercent).
    - intros w Hw. apply Matches_alt_inv in Hw as [Hw|Hw];
        apply Matches_class_inv in Hw as (c & -> & Hc); exists c, [];
        (split; [done|]); unfold isBlankOrPercent.
      + by rewrite Hc.
      + rewrite Ascii.eqb_sym, Hc. apply orb_true_r.
    - change (allChars (fun c => negb (isBlankOrPercent c))
                (a ++ "." ++ b ++ tail) = true).
      apply Hplain; [|done]. intros c Hc. apply (isHostChar_plain c Hc). }
  assert (Hport : forall tail : string,
             allChars (fun c => negb (Ascii.eqb c ":")) tail = true ->
             test (Seq (Chr ":") (Plus Digit)) (a ++ "." ++ b ++ tail) = false).
  { intros tail Htail. apply (test_false_first _ (fun c => Ascii.eqb c ":")).
    - intros w Hw. apply Matches_seq_inv in Hw as (w1 & w2 & -> & Hw1 & _).
      apply Matches_class_inv in Hw1 as (c & -> & Hc). exists c, w2.
      split; [done|]. by rewrite Ascii.eqb_sym.
    - apply Hplain; [|done]. intros c Hc. apply (isHostChar_plain c Hc). }
  assert (Hip : forall tail : string,
             allChars (fun c => negb (isDigit c)) tail = true ->
             test (Seq (Plus Digit) (Seq (Chr ".") (Seq (Plus Digit)
                     (Seq (Chr ".") (Seq (Plus Digit) (Seq (Chr ".") (Plus Digit)))))))
               (a ++ "." ++ b ++ tail) = false).
  { intros tail Htail. apply (test_false_first _ isDigit).
    - intros w Hw. apply Matches_seq_inv in Hw as (w1 & w2 & -> & Hw1 & _).
      apply Matches_plus_class in Hw1 as [Hne Hall].
      destruct Hall as [|c w1 Hc _]; [done|]. by exists c, (w1 ++ w2)%list.
    - apply Hplain; [|done]. intros c Hc. apply (isHostChar_plain c Hc). }
  assert (Hslash : allChars (fun c => negb (Ascii.eqb c "/")) (a ++ "." ++ b ++ "") = true).
  { apply (Hplain (fun c => Ascii.eqb c "/")); [|done].
    intros c Hc. apply (isHostChar_plain c Hc). }
  split.
  - specialize (Hstart ""). specialize (Hcount "" eq_refl).
    specialize (Hblank "" eq_refl). specialize (Hport "" eq_refl).
    specialize (Hip "" eq_refl).
    rewrite (append_nil_r b) in *.
    unfold isShareableRelayUrl.
    rewrite Hstart, Hcount, Hblank, slice_6_wss, Hport, Hip. cbn [andb negb].
    apply negb_true_iff. apply (test_false_first _ (fun c => Ascii.eqb c "/")); [|done].
    intros w Hw. apply (Matches_Lit "/npub") in Hw as ->. by eexists _, _.
  - unfold isShareableRelayUrl.
    rewrite Hstart, Hcount, Hblank, slice_6_wss, Hport, Hip by done.
    cbn [andb negb].
    apply negb_true_iff.
    destruct (test (Lit "/npub") _) eqn:Htest; [|done]. exfalso.
    apply test_spec in Htest as (pre & w & post & Heq & Hw).
    apply (Matches_Lit "/npub") in Hw as ->.
    assert (Hin : "/"%char ∈ list_ascii_of_string (a ++ "." ++ b)).
    { apply (not_last_elem_of "/" "n" pre (list_ascii_of_string "pub" ++ post)%list).
      rewrite !list_ascii_of_string_app in Heq.
      rewrite !list_ascii_of_string_app, <- !app_assoc. symmetry. exact Heq. }
    rewrite (append_nil_r b) in Hslash.
    apply allChars_Forall in Hslash. rewrite Forall_forall in Hslash.
    by apply Hslash in Hin.
Qed.

Lemma isShareableRelayUrl_host_names_witness :
  isShareableRelayUrl "wss://relay.damus.io" = true
  /\ isShareableRelayUrl "wss://relay.damus.io/" = true.
Proof.
  apply (isShareableRelayUrl_host_names "relay" "damus.io");
    [done | done | reflexivity | reflexivity].
Defined.

(** X16. A url that [normalizeRelayUrl] leaves insecure is not shareable: with
    [allowInsecure], the normal form of a url that begins with "ws://" is
    rejected by [isShareableRelayUrl], whatever the library helpers do. *)
Theorem isShareableRelayUrl_rejects_insecure (lib : UrlLib) (url out : string) :
  String.prefix "ws://" url = true ->
  normalizeRelayUrl url true = Ok out ->
  isShareableRelayUrl out = false.
Proof.
  intros Hws Hout. destruct (isShareableRelayUrl out) eqn:Hshare; [|done].
  apply shareable_decompose in Hshare as (host & rest & Heq & _).
  revert Hout. unfold normalizeRelayUrl, wsPrefix.
  rewrite (ws_prefix_not_wss url Hws), Hws.
  destruct (normalizeUrl url) as [normal|e]; simpl; [|done].
  rewrite Heq. discriminate.
Qed.

Lemma isShareableRelayUrl_rejects_insecure_witness :
  String.prefix "ws://" "ws://relay.example.com" = true
  /\ @normalizeRelayUrl Examples.urlLib "ws://relay.example.com" true
     = Ok "ws://relay.example.com/"
  /\ isShareableRelayUrl "ws://relay.example.com/" = false.
Proof.
  split; [reflexivity|]. split; [reflexivity|].
  apply (isShareableRelayUrl_rejects_insecure Examples.urlLib
           "ws://relay.example.com" "ws://relay.example.com/"); reflexivity.
Defined.

End ShareableFacts.
